(** * react-vanilla-form: the form state engine of [src/index.js]

    A shallow embedding of the [Form] component: its [state]
    ([data], [errors]), the change handler [handleChange], the tree
    walk [validateTree], [handleSubmit] and the two lifecycle hooks,
    together with the Ramda functions they are written with
    ([lensPath], [view], [set], [assoc], [reduce], [ap], [reject],
    [complement], [equals], [defaultTo]), as Ramda 0.25 to 0.27 define
    them.  Paths are lists of element names, so every key is a string.

    Modelling decisions.
    - A JavaScript value is a [value]; an object is the finite map of
      its own enumerable properties ([gmap string value]), so two
      objects are equal exactly when Ramda's [equals] says so.
    - A property read [obj[k]] finds the own property of [obj], or else
      what the prototype chain holds.  The own properties of objects,
      arrays and strings are in the value; the members of the built-in
      prototypes ([toString], [constructor], [map], ...) and the
      built-in properties of functions ([length], [name]) are those of
      the [Host].  They depend on the engine, so the host is left open:
      a general theorem holds for every host.  A key under which the
      host holds nothing is [ordinary]; a theorem that needs its keys
      to be ordinary says so.  The examples are run on the host
      [sample].
    - A function value is a name ([VFun f]); [call f] is what it
      computes.  Validators are pure and total, as the form expects.
      A function of the host is a function name as well, though called
      as a validator it may throw: a theorem that depends on what
      calling an entry does keeps the resolution of the entry within
      own properties ([own_along]).  No function name stands for the
      constructor [Array], so the tests [is(Array, x)] and
      [x.constructor === Array] are matches on [VArr] (on [NArr] for
      children).
    - An assignment [result[k] = val] makes [k] an own property.  Under
      the key [__proto__] JavaScript sets the prototype instead; that
      key is not told apart from the others.
    - A [TypeError] (calling what is not a function, reading a property
      of [null]) is an explicit outcome, [Throw TypeError].
    - [setState] is a record update; the host callbacks [onChange] and
      [onSubmit] are recorded as the list of [notice]s a handler emits.
    - [cloneTree] and [render] work on [elem], the children with the
      props [cloneTree] reads; [forget] gives the [node] that
      [validateTree] sees of them.  [React.cloneElement(element, config)]
      is kept symbolic: a [rendered] tree records the element and the
      [config] it was cloned with.  [React.Children.map] is the one of
      React 15 and 16: it flattens nested arrays and hands [null] to the
      callback for a child that is [null], [undefined] or a boolean. *)

From stdpp Require Import gmap strings list fin_maps pretty.
From Stdlib Require Import ZArith Ascii.

Set Warnings "-register-all".

(** ** Values *)

Inductive value : Type :=
| VUndef
| VNull
| VBool (b : bool)
| VNum (n : Z)
| VStr (s : string)
| VFun (f : nat)
| VArr (l : list value)
| VObj (m : gmap string value).

#[global] Instance value_inhabited : Inhabited value := populate VUndef.

#[global] Instance value_eq_dec : EqDecision value.
Proof.
  refine (fix go (a b : value) {struct a} : Decision (a = b) :=
    let _ : EqDecision value := @go in
    match a, b with
    | VUndef, VUndef => left _
    | VNull, VNull => left _
    | VBool x, VBool y => cast_if (decide (x = y))
    | VNum x, VNum y => cast_if (decide (x = y))
    | VStr x, VStr y => cast_if (decide (x = y))
    | VFun x, VFun y => cast_if (decide (x = y))
    | VArr x, VArr y => cast_if (decide (x = y))
    | VObj x, VObj y => cast_if (decide (x = y))
    | _, _ => right _
    end); abstract congruence.
Defined.

(** [Boolean(v)]: JavaScript truthiness. *)
Definition Boolean (v : value) : bool :=
  match v with
  | VUndef | VNull => false
  | VBool b => b
  | VNum n => negb (n =? 0)%Z
  | VStr s => negb (String.eqb s "")
  | VFun _ | VArr _ | VObj _ => true
  end.

(** ** Outcomes: a result or a thrown exception *)

Inductive exn : Type := TypeError.

Inductive result (A : Type) : Type :=
| Ok (a : A)
| Throw (e : exn).

Arguments Ok {A} a.
Arguments Throw {A} e.

#[global] Instance result_ret : MRet result := @Ok.
#[global] Instance result_bind : MBind result := λ A B f m,
  match m with
  | Ok a => f a
  | Throw e => Throw e
  end.
#[global] Instance result_fmap : FMap result := λ A B f m,
  match m with
  | Ok a => Ok (f a)
  | Throw e => Throw e
  end.

(** ** Property access *)

(** The own enumerable properties of a value, what [for (p in obj)]
    visits and copies: the entries of an object, the elements of an
    array under their decimal indices, the characters of a string. *)
Definition indexed (l : list value) : gmap string value :=
  list_to_map (imap (λ i x, (pretty i, x)) l).

Definition chars (s : string) : list value :=
  (λ a, VStr (String a EmptyString)) <$> String.list_ascii_of_string s.

Definition enumerable (obj : value) : gmap string value :=
  match obj with
  | VObj m => m
  | VArr l => indexed l
  | VStr s => indexed (chars s)
  | _ => ∅
  end.

(** [length], the own property of arrays and strings that is not
    enumerable. *)
Definition length_of (obj : value) : option value :=
  match obj with
  | VArr l => Some (VNum (Z.of_nat (length l)))
  | VStr s => Some (VNum (Z.of_nat (String.length s)))
  | _ => None
  end.

(** The prototype a value inherits from; [null] and [undefined] have
    none. *)
Inductive prototype : Type :=
| Object_prototype
| Array_prototype
| String_prototype
| Number_prototype
| Boolean_prototype
| Function_prototype.

Definition prototype_of (obj : value) : option prototype :=
  match obj with
  | VUndef | VNull => None
  | VBool _ => Some Boolean_prototype
  | VNum _ => Some Number_prototype
  | VStr _ => Some String_prototype
  | VFun _ => Some Function_prototype
  | VArr _ => Some Array_prototype
  | VObj _ => Some Object_prototype
  end.

(** The host: what a property read finds beyond the own properties
    above.  [inherited p k] is what the prototype chain that starts at
    [p] holds under [k] ([toString], [constructor], [map], ...), and
    [undefined] when it holds nothing; [builtin f k] is the own property
    [k] of the function [f] ([length], [name], ...), none of them
    enumerable.  Both depend on the engine, and on the function: they
    are left open, and what is proved holds for every host. *)
Class Host : Type := {
  inherited : prototype → string → value;
  builtin : nat → string → option value
}.

Section Access.
  Context `{!Host}.

(** The own properties of a value, [hasOwnProperty]. *)
Definition own (obj : value) (k : string) : option value :=
  match obj with
  | VFun f => builtin f k
  | _ =>
      match enumerable obj !! k with
      | Some x => Some x
      | None => if String.eqb k "length" then length_of obj else None
      end
  end.

(** [obj[k]] for an [obj] that is neither [null] nor [undefined]: the
    own property, or else what the prototype chain holds. *)
Definition prop (obj : value) (k : string) : value :=
  match own obj k with
  | Some x => x
  | None =>
      match prototype_of obj with
      | Some p => inherited p k
      | None => VUndef
      end
  end.

End Access.

(** A key is ordinary when no prototype chain holds anything under it
    and no function has it as a property of its own: an element name
    such as [email], and not [toString], [constructor] or [length]. *)
Definition ordinary `{!Host} (k : string) : Prop :=
  (∀ p, inherited p k = VUndef) ∧ (∀ f, builtin f k = None).

(** The host as ordinary keys see it: nothing inherited, nothing built
    in.  On ordinary keys every host reads as this one does. *)
Definition bare : Host := {| inherited := λ _ _, VUndef; builtin := λ _ _, None |}.

(** ** Ramda *)

Module R.

Definition isNil (x : value) : bool :=
  match x with
  | VUndef | VNull => true
  | _ => false
  end.

Section lenses.
  Context `{!Host}.

(** [_has(k, obj)]: [hasOwnProperty]. *)
Definition has (k : string) (obj : value) : bool := bool_decide (is_Some (own obj k)).

(** [defaultTo(d, v)]: [v == null ? d : v]. *)
Definition defaultTo (d v : value) : value := if isNil v then d else v.

(** [equals]: deep structural equality. *)
Definition equals (a b : value) : bool := bool_decide (a = b).

(** [path(paths, obj)]:
    [while (idx < paths.length) { if (val == null) return; val = val[paths[idx]]; idx += 1 }] *)
Fixpoint path (paths : list string) (val : value) : value :=
  match paths with
  | [] => val
  | k :: rest => if isNil val then VUndef else path rest (prop val k)
  end.

(** [assoc(prop, val, obj)]: a fresh object with the enumerable
    properties of [obj], then [result[prop] = val]. *)
Definition assoc (k : string) (val obj : value) : value :=
  VObj (<[k := val]> (enumerable obj)).

(** [assocPath(path, val, obj)] for string keys: the next object is
    [obj[idx]] when [obj] has it and a fresh [{}] otherwise. *)
Fixpoint assocPath (paths : list string) (val obj : value) : value :=
  match paths with
  | [] => val
  | idx :: rest =>
      let val :=
        match rest with
        | [] => val
        | _ :: _ =>
            let nextObj := if negb (isNil obj) && has idx obj then prop obj idx else VObj ∅ in
            assocPath rest val nextObj
        end in
      assoc idx val obj
  end.

(** A lens is a getter with a setter; [lensPath(p)] is
    [lens(path(p), assocPath(p))]. *)
Record lens : Type := Lens {
  getter : value → value;
  setter : value → value → value
}.

Definition lensPath (p : list string) : lens := Lens (path p) (assocPath p).
Definition view (l : lens) (x : value) : value := getter l x.
Definition set (l : lens) (v x : value) : value := setter l v x.

End lenses.

Definition complement (f : value → bool) : value → bool := λ x, negb (f x).
Definition reject (p : value → bool) (l : list value) : list value :=
  List.filter (λ x, negb (p x)) l.

Section reduce.
  Context {A B : Type} (f : A → B → result A).

(** [reduce(f, acc, list)], with an [f] that may throw. *)
Fixpoint reduce (acc : A) (l : list B) : result A :=
  match l with
  | [] => Ok acc
  | x :: l' => acc' ← f acc x; reduce acc' l'
  end.
End reduce.

Section apply.
  Variable call : nat → value → value.

(** [f(x)]: calling what is not a function throws. *)
Definition invoke (f x : value) : result value :=
  match f with
  | VFun n => Ok (call n x)
  | _ => Throw TypeError
  end.

Fixpoint traverse (f : value → result value) (l : list value) : result (list value) :=
  match l with
  | [] => Ok []
  | x :: l' => y ← f x; ys ← traverse f l'; Ok (y :: ys)
  end.

(** [ap(applyF, applyX)] on arrays: every function of [applyF], in
    order, mapped over [applyX]; the results concatenated. *)
Fixpoint ap (applyF applyX : list value) : result (list value) :=
  match applyF with
  | [] => Ok []
  | f :: fs => ys ← traverse (invoke f) applyX; rest ← ap fs applyX; Ok (ys ++ rest)
  end.
End apply.

End R.

(** ** React elements

    What [validateTree] can meet as [element]: [null] or [undefined], a
    string, another value without [props] (a number, a boolean, a
    nested array), or an element with its [props.name] and
    [props.children].  [children] is itself such a node: an array of
    nodes, a single node, or [undefined]. *)

Inductive node : Type :=
| NNil
| NText (s : string)
| NPlain
| NArr (l : list node)
| NElem (name : option string) (children : node).

(** [element.props.name ? ... : ...] *)
Definition named (name : option string) : bool :=
  match name with
  | Some s => negb (String.eqb s "")
  | None => false
  end.

(** [element.props.name] used as a property key. *)
Definition key (name : option string) : string :=
  match name with
  | Some s => s
  | None => "undefined"
  end.

(** ** The component *)

Record Props : Type := {
  p_children : node;
  p_validation : value;
  p_data : value;
  p_onChange : bool   (* [typeof onChange === 'function'] *)
}.

Record State : Type := {
  s_errors : value;
  s_data : value
}.

Record Form : Type := {
  props : Props;
  state : State
}.

(** A call of a host callback. *)
Inductive notice : Type :=
| Changed (data errors : value)
| Submitted (data : value).

Definition defaultToEmptyString : value → value := R.defaultTo (VStr "").

(** [this.setState(partial)] *)
Definition setState (this : Form) (errors data : value) : Form :=
  {| props := props this; state := {| s_errors := errors; s_data := data |} |}.

(** [constructor(props)] *)
Definition constructor (p : Props) : Form :=
  {| props := p;
     state := {| s_errors := VObj ∅;
                 s_data := if Boolean (p_data p) then p_data p else VObj ∅ |} |}.

Definition notifyChangeEvent (this : Form) : list notice :=
  if p_onChange (props this)
  then [Changed (s_data (state this)) (s_errors (state this))]
  else [].

(** [this] passed as an element: the form declares no [name]. *)
Definition self (this : Form) : node := NElem None (p_children (props this)).

Section Form.
  Context `{!Host}.
  Variable call : nat → value → value.

Definition handleChange (this : Form) (path : list string) (value : value)
  : result (Form * list notice) :=
  let lens := R.lensPath path in
  let data := R.set lens value (s_data (state this)) in
  let validate := R.view lens (p_validation (props this)) in
  if negb (Boolean validate) then
    let this' := setState this (s_errors (state this)) data in
    Ok (this', notifyChangeEvent this')
  else
    match validate with
    | VArr fs =>
        validationErrors ← R.reject (R.complement Boolean) <$> R.ap call fs [value];
        match validationErrors with
        | validation :: _ =>
            let errors := R.set lens validation (s_errors (state this)) in
            let this' := setState this errors data in
            Ok (this', notifyChangeEvent this')
        | [] =>
            let errors := R.set lens VNull (s_errors (state this)) in
            let this' := setState this errors data in
            Ok (this', notifyChangeEvent this')
        end
    | _ =>
        validation ← R.invoke call validate (defaultToEmptyString (R.view lens data));
        let errors := R.set lens validation (s_errors (state this)) in
        let this' := setState this errors data in
        Ok (this', notifyChangeEvent this')
    end.

Fixpoint validateTree (this : Form) (errors : value) (element : node)
    (parentPath : list string) {struct element} : result value :=
  match element with
  | NText _ => Ok errors
  | NNil => Throw TypeError
  | NPlain | NArr _ => Ok errors
  | NElem name children =>
      match children with
      | NArr children =>
          let path := if named name then parentPath ++ [key name] else parentPath in
          validated ← R.reduce (λ acc child, validateTree this acc child path) (VObj ∅) children;
          if (0 <? length path)%nat
          then Ok (R.assoc (key name) validated errors)
          else Ok validated
      | _ =>
          if named name then
            let path := parentPath ++ [key name] in
            let lens := R.lensPath path in
            let validation := R.view lens (p_validation (props this)) in
            if negb (Boolean validation) then Ok errors
            else
              let value := R.defaultTo (VStr "") (R.view lens (s_data (state this))) in
              match validation with
              | VArr fs =>
                  validationErrors ← R.reject (R.complement Boolean) <$> R.ap call fs [value];
                  match validationErrors with
                  | error :: _ => Ok (R.assoc (key name) error errors)
                  | [] => Ok errors
                  end
              | _ =>
                  validationError ← R.invoke call validation value;
                  if negb (Boolean validationError) then Ok errors
                  else Ok (R.assoc (key name) validationError errors)
              end
          else Ok errors
      end
  end.

Definition componentWillMount (this : Form) : result Form :=
  if Boolean (p_data (props this)) then
    errors ← validateTree this (VObj ∅) (self this) [];
    Ok (setState this errors (s_data (state this)))
  else Ok this.

(** The hook runs with the old [props] still in place; React installs
    [nextProps] after it. *)
Definition componentWillReceiveProps (this : Form) (nextProps : Props) : result Form :=
  let data := p_data nextProps in
  this' ←
    (if Boolean data && negb (R.equals data (p_data (props this))) then
       errors ← validateTree this (s_errors (state this)) (self this) [];
       Ok (setState this errors data)
     else Ok this);
  Ok {| props := nextProps; state := state this' |}.

Definition handleSubmit (this : Form) : result (Form * list notice) :=
  errors ← validateTree this (s_errors (state this)) (self this) [];
  let this' := setState this errors (s_data (state this)) in
  Ok (this', [Submitted (s_data (state this))]).

End Form.

(** ** Example forms

    Validators in the style of the project's documentation: each takes
    the input string and returns a message on error and a falsy value
    otherwise. *)

Definition isNonEmpty : nat := 0.     (* v => v === '' ? 'required' : null *)
Definition isEmailShaped : nat := 1.  (* v => /@/.test(v) ? null : 'invalid email' *)
Definition alwaysBad : nat := 2.      (* () => 'bad' *)
Definition alwaysWorse : nat := 3.    (* () => 'worse' *)
Definition required : nat := 4.       (* v => v === '' && 'required' *)
Definition objectToString : nat := 5. (* Object.prototype.toString, called as a function *)

Definition has_at (s : string) : bool :=
  existsb (Ascii.eqb "@"%char) (String.list_ascii_of_string s).

Definition validators (f : nat) (v : value) : value :=
  match f with
  | 0 => if decide (v = VStr "") then VStr "required" else VNull
  | 1 => match v with
         | VStr s => if has_at s then VNull else VStr "invalid email"
         | _ => VStr "invalid email"
         end
  | 2 => VStr "bad"
  | 3 => VStr "worse"
  | 4 => if decide (v = VStr "") then VStr "required" else VBool false
  | 5 => VStr "[object Undefined]"
  | _ => VUndef
  end.

(** The host of the examples.  It holds the built-in members the
    examples meet: [length] and [name] of the functions above, and
    [toString] of plain objects.  Under every other key it holds
    nothing, as an engine does under the names the example forms use. *)
Definition fn_length (f : nat) : Z :=
  match f with
  | 0 | 1 | 4 => 1
  | _ => 0
  end.

Definition fn_name (f : nat) : string :=
  match f with
  | 0 => "isNonEmpty"
  | 1 => "isEmailShaped"
  | 2 => "alwaysBad"
  | 3 => "alwaysWorse"
  | 4 => "required"
  | 5 => "toString"
  | _ => EmptyString
  end.

Definition sample : Host :=
  {| inherited := λ p k,
       match p with
       | Object_prototype =>
           if String.eqb k "toString" then VFun objectToString else VUndef
       | _ => VUndef
       end;
     builtin := λ f k,
       if String.eqb k "length" then Some (VNum (fn_length f))
       else if String.eqb k "name" then Some (VStr (fn_name f))
       else None |}.

(** The keys under which [sample] holds nothing. *)
Definition plain_key (k : string) : bool :=
  negb (String.eqb k "length" || String.eqb k "name" || String.eqb k "toString").

(** [<input name=... />] and [<label role="alert" htmlFor=... />] *)
Definition input (name : string) : node := NElem (Some name) NNil.
Definition label : node := NElem None NNil.

(** [<Form validation={{ email: [isNonEmpty, isEmailShaped] }}>
      <input name="email" /> <label ... /> </Form>] *)
Definition emailProps : Props :=
  {| p_children := NArr [input "email"; label];
     p_validation := VObj {[ "email" := VArr [VFun isNonEmpty; VFun isEmailShaped] ]};
     p_data := VNull;
     p_onChange := true |}.

(** [<Form validation={{ address: { zip: isNonEmpty } }} data={{ address: { zip: '' } }}>
      <fieldset name="address"> <input name="zip" /> <label ... /> </fieldset>
      <button /> </Form>] *)
Definition addressProps : Props :=
  {| p_children := NArr [NElem (Some "address") (NArr [input "zip"; label]); label];
     p_validation := VObj {[ "address" := VObj {[ "zip" := VFun isNonEmpty ]} ]};
     p_data := VObj {[ "address" := VObj {[ "zip" := VStr "" ]} ]};
     p_onChange := false |}.

(** [<Form validation={{ code: [isNonEmpty, alwaysBad, alwaysWorse] }}>
      <input name="code" /> <label ... /> </Form>] *)
Definition codeProps : Props :=
  {| p_children := NArr [input "code"; label];
     p_validation := VObj {[ "code" := VArr [VFun isNonEmpty; VFun alwaysBad; VFun alwaysWorse] ]};
     p_data := VNull;
     p_onChange := true |}.

(** [<Form validation={{ email: required }}> <input name="email" /> <label ... /> </Form>],
    with the error of an empty [email] on display. *)
Definition requiredProps : Props :=
  {| p_children := NArr [input "email"; label];
     p_validation := VObj {[ "email" := VFun required ]};
     p_data := VNull;
     p_onChange := false |}.

Definition requiredForm : Form :=
  {| props := requiredProps;
     state := {| s_errors := VObj {[ "email" := VStr "required" ]};
                 s_data := VObj {[ "email" := VStr "" ]} |} |}.

(** [<Form validation={{ address: isNonEmpty }}> ... </Form>]: a
    function where the fields of [addressProps] expect a keyed node. *)
Definition flatSpecForm : Form :=
  constructor
    {| p_children := p_children addressProps;
       p_validation := VObj {[ "address" := VFun isNonEmpty ]};
       p_data := VNull;
       p_onChange := false |}.

(** [<Form validation={{ email: isNonEmpty }}> <input name="email" /> </Form>]:
    one child, so [props.children] is that element and not an array. *)
Definition singleChildForm : Form :=
  constructor
    {| p_children := input "email";
       p_validation := VObj {[ "email" := VFun isNonEmpty ]};
       p_data := VNull;
       p_onChange := false |}.

(** The same form with a second child. *)
Definition twoChildrenForm : Form :=
  constructor
    {| p_children := NArr [input "email"; label];
       p_validation := VObj {[ "email" := VFun isNonEmpty ]};
       p_data := VNull;
       p_onChange := false |}.

(** [<Form validation={{ address: { zip: isNonEmpty } }}>
      <fieldset name="address"> <input name="zip" /> </fieldset> <button />
    </Form>]: the group has one child, so the [children] of the
    [fieldset] are that element and not an array. *)
Definition loneChildForm : Form :=
  constructor
    {| p_children := NArr [NElem (Some "address") (input "zip"); label];
       p_validation := VObj {[ "address" := VObj {[ "zip" := VFun isNonEmpty ]} ]};
       p_data := VNull;
       p_onChange := false |}.

(** [<Form data={{ email: '' }} validation={{ email: [isNonEmpty, isEmailShaped] }}> ...],
    mounted: the empty [email] is reported. *)
Definition controlledProps (email : string) : Props :=
  {| p_children := NArr [input "email"; label];
     p_validation := VObj {[ "email" := VArr [VFun isNonEmpty; VFun isEmailShaped] ]};
     p_data := VObj {[ "email" := VStr email ]};
     p_onChange := true |}.

Definition mountedForm : Form :=
  {| props := controlledProps "";
     state := {| s_errors := VObj {[ "email" := VStr "required" ]};
                 s_data := VObj {[ "email" := VStr "" ]} |} |}.

(** [<Form validation={{ email: [isNonEmpty, isEmailShaped], address: { zip: isNonEmpty } }}>
      <input name="email" /> <label ... />
      <fieldset name="address">
        <input name="zip" /> <label ... /> <input name="city" />
      </fieldset>
      <button />
    </Form>] *)
Definition signupProps : Props :=
  {| p_children :=
       NArr [input "email"; label;
             NElem (Some "address") (NArr [input "zip"; label; input "city"]);
             NElem None (NText "Sign up")];
     p_validation :=
       VObj {[ "email" := VArr [VFun isNonEmpty; VFun isEmailShaped];
               "address" := VObj {[ "zip" := VFun isNonEmpty ]} ]};
     p_data := VNull;
     p_onChange := false |}.


Definition signupFilled : Form :=
  {| props := signupProps;
     state :=
       {| s_errors := VObj {[ "address" := VObj {[ "zip" := VStr "required" ]};
                              "email" := VNull ]};
          s_data := VObj {[ "address" := VObj {[ "city" := VStr "Paris"; "zip" := VStr "" ]};
                            "email" := VStr "a@b.com" ]} |} |}.

(** The e-mail form after a good address was typed. *)
Definition emailTyped : Form :=
  {| props := emailProps;
     state := {| s_errors := VObj {[ "email" := VNull ]};
                 s_data := VObj {[ "email" := VStr "a@b.com" ]} |} |}.

(** Two layouts with an unnamed wrapper around an array of children:
    [<Form> <input name="email" /> <div> <input name="zip" /> <label /> </div> </Form>] and
    [<Form> <fieldset name="address"> <div> <input name="zip" /> <label /> </div> <label />
     </fieldset> <label /> </Form>], both untouched, every field required. *)
Definition wrappedTopForm : Form :=
  constructor
    {| p_children := NArr [input "email"; NElem None (NArr [input "zip"; label])];
       p_validation := VObj {[ "email" := VFun isNonEmpty; "zip" := VFun isNonEmpty ]};
       p_data := VNull;
       p_onChange := false |}.

Definition wrappedGroupForm : Form :=
  constructor
    {| p_children :=
         NArr [NElem (Some "address") (NArr [NElem None (NArr [input "zip"; label]); label]);
               label];
       p_validation := VObj {[ "address" := VObj {[ "zip" := VFun isNonEmpty ]} ]};
       p_data := VNull;
       p_onChange := false |}.

(** ** Fields of a form, and a session of changes *)

Section Sessions.
  Context `{!Host}.

(** [is(Array, element.props.children)] *)
Definition is_array (children : node) : bool :=
  match children with
  | NArr _ => true
  | _ => false
  end.

(** The paths [validateTree] validates, in the order of its walk: one
    for every named element whose children are not an array, under the
    names of the named elements around it. *)
Fixpoint fields (parentPath : list string) (element : node) : list (list string) :=
  match element with
  | NElem name children =>
      match children with
      | NArr children =>
          let path := if named name then parentPath ++ [key name] else parentPath in
          flat_map (fields path) children
      | _ => if named name then [parentPath ++ [key name]] else []
      end
  | _ => []
  end.

(** The host delivers one change after the other, each applied to the
    state the previous one left. *)
Fixpoint handleChanges (call : nat → value → value) (this : Form)
    (changes : list (list string * value)) : result Form :=
  match changes with
  | [] => Ok this
  | (path, value) :: rest =>
      r ← handleChange call this path value;
      handleChanges call r.1 rest
  end.


(** The message of one field: what the validator entry at its path
    answers for its value.  [handleChange] and [validateTree] both
    compute it, each in place; they differ in what they do with it. *)
Definition fieldMessage (call : nat → value → value) (entry v : value) : result value :=
  if negb (Boolean entry) then Ok VUndef
  else
    match entry with
    | VArr fs =>
        validationErrors ← R.reject (R.complement Boolean) <$> R.ap call fs [v];
        Ok (default VNull (head validationErrors))
    | _ => R.invoke call entry (defaultToEmptyString v)
    end.

(** The message of the field at path [p], for the value the data tree
    holds there ([''] when it holds none). *)
Definition messageAt (call : nat → value → value) (this : Form) (p : list string) : result value :=
  fieldMessage call (R.view (R.lensPath p) (p_validation (props this)))
    (R.defaultTo (VStr "") (R.view (R.lensPath p) (s_data (state this)))).

(** Forms laid out the way the walk of [validateTree] and the walk of
    [cloneTree] both understand: a named element with an array of
    children is a group, a named element without children is a field,
    an element without name has no element below it, and the named
    children of one parent have different names. *)
Definition child_name (element : node) : option string :=
  match element with
  | NElem (Some s) _ => Some s
  | _ => None
  end.

Definition distinct_names (children : list node) : bool :=
  bool_decide (NoDup (omap child_name children)).

Fixpoint regular (element : node) : bool :=
  match element with
  | NNil | NArr _ => false
  | NText _ | NPlain => true
  | NElem name children =>
      match children with
      | NArr children => named name && forallb regular children && distinct_names children
      | NElem _ _ => false
      | NNil => match name with Some _ => named name | None => true end
      | NText _ | NPlain => match name with Some _ => false | None => true end
      end
  end.

Definition regular_form (this : Form) : bool :=
  match p_children (props this) with
  | NArr children => forallb regular children && distinct_names children
  | _ => false
  end.

(** Two paths part ways: at some position both have a key, and the
    keys differ. *)
Fixpoint diverge (p q : list string) : Prop :=
  match p, q with
  | k :: p', k' :: q' => k ≠ k' ∨ diverge p' q'
  | _, _ => False
  end.


(** Down the path the tree has keyed nodes only, until the path ends
    or the tree does. *)
Fixpoint keyed_along (p : list string) (t : value) : Prop :=
  match p with
  | [] => True
  | k :: rest => t = VUndef ∨ ∃ m, t = VObj m ∧ keyed_along rest (default VUndef (m !! k))
  end.


(** A validator entry: a function or a list of functions. *)
Definition is_entry (v : value) : bool :=
  match v with
  | VFun _ | VArr _ => true
  | _ => false
  end.

(** Forms on which [validateTree] cannot throw: no [null] among the
    nodes it visits, and at every field path a validator entry that can
    be applied (nothing, a function, or a list of functions). *)
Fixpoint visitable (element : node) : bool :=
  match element with
  | NNil => false
  | NElem _ (NArr children) => forallb visitable children
  | _ => true
  end.

Definition is_function (f : value) : bool :=
  match f with
  | VFun _ => true
  | _ => false
  end.

Definition applicable (entry : value) : bool :=
  match entry with
  | VFun _ => true
  | VArr fs => forallb is_function fs
  | _ => negb (Boolean entry)
  end.

Definition well_formed (this : Form) : bool :=
  visitable (self this)
  && forallb (λ p, applicable (R.view (R.lensPath p) (p_validation (props this))))
       (fields [] (self this)).

(** The resolution of the path [p] in the tree [t] reads own properties
    only: at every key the value on the way has the property as its
    own, or nothing is found at all.  What is resolved is then a value
    the tree was given, and no member of a prototype. *)
Fixpoint own_along (p : list string) (t : value) : bool :=
  match p with
  | [] => true
  | k :: rest =>
      R.isNil t ||
      match own t k with
      | Some x => own_along rest x
      | None => bool_decide (prop t k = VUndef)
      end
  end.

(** Every field of the form has its validator entry resolved that way. *)
Definition own_resolved (this : Form) : bool :=
  forallb (λ p, own_along p (p_validation (props this))) (fields [] (self this)).

End Sessions.

(** ** Rendering

    [cloneTree] reads of an element its [role], [htmlFor], [name] and
    [children]; a child is [null] or [undefined], a string, a boolean,
    a number, an array of children, or an element. *)

Inductive elem : Type :=
| ENil
| EText (s : string)
| EBool (b : bool)
| ENum (n : Z)
| EArr (l : list elem)
| EElem (role htmlFor name : option string) (children : elem).

(** What [validateTree] reads of it. *)
Fixpoint forget (element : elem) : node :=
  match element with
  | ENil => NNil
  | EText s => NText s
  | EBool _ | ENum _ => NPlain
  | EArr l => NArr (forget <$> l)
  | EElem _ _ name children => NElem name (forget children)
  end.

(** [element.props.children], as a condition. *)
Definition present (children : elem) : bool :=
  match children with
  | ENil => false
  | EText s => negb (String.eqb s "")
  | EBool b => b
  | ENum n => negb (n =? 0)%Z
  | EArr _ | EElem _ _ _ _ => true
  end.

(** [element.props.role === 'alert' && element.props.htmlFor] *)
Definition is_alert (role htmlFor : option string) : bool :=
  bool_decide (role = Some "alert") && named htmlFor.

(** What [cloneTree] returns: the element as it is, or a clone of it,
    [React.cloneElement(element, config)], with one of the three
    [config]s of the source. *)
Inductive rendered : Type :=
| Returned (element : elem)
| Alert (element : elem) (error : value)
| Container (element : elem) (children : list rendered)
| Control (element : elem) (error shown : value) (onChange : list string).

(** [React.Children.map(children, f)] for a callback [f] that reads
    [props] of its argument, as [cloneTree] does: the children are
    flattened and [f] is called on each in order, with [null] for a
    child that is [null], [undefined] or a boolean, where such an [f]
    throws; the results are collected in an array. *)
Section Children.
  Variable f : elem → result rendered.

Fixpoint Children_map (children : elem) : result (list rendered) :=
  match children with
  | EArr l =>
      (fix each (l : list elem) : result (list rendered) :=
         match l with
         | [] => Ok []
         | child :: l' =>
             mapped ← Children_map child; rest ← each l'; Ok (mapped ++ rest)
         end) l
  | ENil | EBool _ => Throw TypeError
  | _ => mapped ← f children; Ok [mapped]
  end.
End Children.

Section Render.
  Context `{!Host}.
  Variable this : Form.

(** [cloneTree(element, index, parentPath)] *)
Fixpoint cloneTree (element : elem) (parentPath : list string) {struct element}
    : result rendered :=
  match element with
  | EText _ => Ok (Returned element)
  | ENil | EBool _ | ENum _ | EArr _ => Throw TypeError
  | EElem role htmlFor name children =>
      if is_alert role htmlFor then
        let path := parentPath ++ [key htmlFor] in
        let lens := R.lensPath path in
        let errors := R.view lens (s_errors (state this)) in
        if Boolean errors then
          let error := match errors with VArr _ => prop errors "0" | _ => errors end in
          Ok (Alert element error)
        else Ok (Returned element)
      else
        let name := match name with Some s => [s] | None => [] end in
        let path := parentPath ++ name in
        let lens := R.lensPath path in
        if present children then
          mapped ← Children_map (λ child, cloneTree child (parentPath ++ name)) children;
          Ok (Container element mapped)
        else if (0 <? length name)%nat then
          Ok (Control element
                (R.view lens (s_errors (state this)))
                (defaultToEmptyString (R.view lens (s_data (state this))))
                path)
        else Ok (Returned element)
  end.

(** [React.Children.map(this.props.children, this.cloneTree)], the
    children of the [<form>]: [null] children are returned as they are. *)
Definition render (children : elem) : result (option (list rendered)) :=
  match children with
  | ENil => Ok None
  | _ => Some <$> Children_map (λ child, cloneTree child []) children
  end.

End Render.

Definition textInput (name : string) : elem := EElem None None (Some name) ENil.
Definition alertLabel (htmlFor : string) : elem := EElem (Some "alert") (Some htmlFor) None ENil.

Definition signupChildren : elem :=
  EArr [textInput "email"; alertLabel "email";
        EElem None None (Some "address")
          (EArr [textInput "zip"; alertLabel "zip"; textInput "city"]);
        EElem None None None (EText "Sign up")].

(** What [render] makes of the sign-up form filled in. *)
Definition signupRendered : list rendered :=
  [Control (textInput "email") VNull (VStr "a@b.com") ["email"];
   Returned (alertLabel "email");
   Container (EElem None None (Some "address")
                (EArr [textInput "zip"; alertLabel "zip"; textInput "city"]))
     [Control (textInput "zip") (VStr "required") (VStr "") ["address"; "zip"];
      Alert (alertLabel "zip") (VStr "required");
      Control (textInput "city") VUndef (VStr "Paris") ["address"; "city"]];
   Container (EElem None None None (EText "Sign up")) [Returned (EText "Sign up")]].

(** The sign-up form after the zip code was touched and left empty. *)
Definition zipTouched : Form :=
  {| props := signupProps;
     state := {| s_errors := VObj {[ "address" := VObj {[ "zip" := VStr "required" ]} ]};
                 s_data := VObj {[ "address" := VObj {[ "zip" := VStr "" ]} ]} |} |}.

(** ** What was rendered, and what can be *)

(** Children that can be cloned: strings and elements, through nested
    arrays; below an element that is not an alert label, its children
    again when it has any. *)
Fixpoint renderable (element : elem) : bool :=
  match element with
  | EText _ => true
  | ENil | EBool _ | ENum _ => false
  | EArr l => forallb renderable l
  | EElem role htmlFor name children =>
      is_alert role htmlFor || negb (present children) || renderable children
  end.

(** The paths [handleChange] is bound to in what was rendered. *)
Fixpoint bound (r : rendered) : list (list string) :=
  match r with
  | Control _ _ _ onChange => [onChange]
  | Container _ children => flat_map bound children
  | Returned _ | Alert _ _ => []
  end.

(** The [error] and [value] given to the controls in what was rendered. *)
Fixpoint controls (r : rendered) : list (value * value) :=
  match r with
  | Control _ error shown _ => [(error, shown)]
  | Container _ children => flat_map controls children
  | Returned _ | Alert _ _ => []
  end.

(** No alert label carries a name. *)
Fixpoint labels_unnamed (element : elem) : bool :=
  match element with
  | EElem role htmlFor name children =>
      (if is_alert role htmlFor then bool_decide (name = None) else true)
      && labels_unnamed children
  | EArr l => forallb labels_unnamed l
  | _ => true
  end.

(** The names under which [cloneTree] reads the state: [htmlFor] of the
    alert labels, [name] of the other elements it reaches. *)
Fixpoint names (element : elem) : list string :=
  match element with
  | EElem role htmlFor name children =>
      if is_alert role htmlFor then [key htmlFor]
      else match name with Some s => [s] | None => [] end ++ names children
  | EArr l => flat_map names l
  | _ => []
  end.

(** The messages shown by the alert labels in what was rendered. *)
Fixpoint alerts (r : rendered) : list value :=
  match r with
  | Alert _ error => [error]
  | Container _ children => flat_map alerts children
  | Returned _ | Control _ _ _ _ => []
  end.

(** Nothing to show: every control without an error and with the empty
    string as its value, no alert label with a message. *)
Definition blank (r : rendered) : Prop :=
  Forall (λ c, c = (VUndef, VStr "")) (controls r) ∧ alerts r = [].

(** Every entry of an error object is truthy: the object holds messages
    only, no [null] and no [false]. *)
Definition truthy_entries (m : gmap string value) : Prop :=
  map_Forall (λ _ v, Boolean v = true) m.

(** * Properties *)

Section Hosted.
  Context `{!Host}.

(** ** Property access and lenses *)

Lemma own_VObj m k : own (VObj m) k = m !! k.
Proof. unfold own; simpl. destruct (m !! k); [done|]. by destruct (String.eqb k "length"). Qed.

Lemma prop_VObj m k : prop (VObj m) k = default (inherited Object_prototype k) (m !! k).
Proof. unfold prop. rewrite own_VObj. by destruct (m !! k). Qed.

(** An ordinary key that is no own property reads as [undefined]. *)
Lemma prop_ordinary obj k : ordinary k → own obj k = None → prop obj k = VUndef.
Proof.
  intros [Hin _] Hown. unfold prop. rewrite Hown. destruct (prototype_of obj); [apply Hin | done].
Qed.

Lemma prop_own obj k x : own obj k = Some x → prop obj k = x.
Proof. intros Hown. unfold prop. by rewrite Hown. Qed.

Lemma prop_assoc_eq k v obj : prop (R.assoc k v obj) k = v.
Proof. unfold R.assoc. by rewrite prop_VObj, lookup_insert_eq. Qed.

Lemma path_undef ps : R.path ps VUndef = VUndef.
Proof. by destruct ps. Qed.

Lemma path_app ps qs t : R.path (ps ++ qs) t = R.path qs (R.path ps t) ∨ R.path (ps ++ qs) t = VUndef.
Proof.
  revert t; induction ps as [|k ps IH]; intros t; simpl; [by left|].
  destruct (R.isNil t); [by right|]. apply IH.
Qed.

Lemma path_cons_assoc k ps x obj : R.path (k :: ps) (R.assoc k x obj) = R.path ps x.
Proof. change (R.path (k :: ps) (R.assoc k x obj)) with (R.path ps (prop (R.assoc k x obj) k)). by rewrite prop_assoc_eq. Qed.

Lemma assocPath_cons k ps v t :
  R.assocPath (k :: ps) v t =
  R.assoc k (match ps with
             | [] => v
             | _ :: _ => R.assocPath ps v (if negb (R.isNil t) && R.has k t then prop t k else VObj ∅)
             end) t.
Proof. done. Qed.

(** Reading back what [assocPath] wrote, for every path. *)
Lemma path_assocPath ps v t : R.path ps (R.assocPath ps v t) = v.
Proof.
  revert t; induction ps as [|k ps IH]; intros t; [done|].
  rewrite assocPath_cons, path_cons_assoc.
  destruct ps as [|k' ps]; [done|]. apply IH.
Qed.

Lemma view_lensPath p t : R.view (R.lensPath p) t = R.path p t.
Proof. done. Qed.

Lemma set_lensPath p v t : R.set (R.lensPath p) v t = R.assocPath p v t.
Proof. done. Qed.

Lemma view_set p v t : R.view (R.lensPath p) (R.set (R.lensPath p) v t) = v.
Proof. rewrite view_lensPath, set_lensPath. apply path_assocPath. Qed.

(** C7. Lens round trip: for every tree, every path and every value
    [v], viewing through [lensPath path] what [set] wrote through the
    same lens gives back [v]; missing intermediate nodes are created on
    the way and do not matter. *)
Theorem lens_round_trip (tree : value) (path : list string) (v : value) :
  R.view (R.lensPath path) (R.set (R.lensPath path) v tree) = v.
Proof.
  revert tree. induction path as [|k path IH]; intros tree; [done|].
  rewrite view_lensPath, set_lensPath, assocPath_cons, path_cons_assoc.
  destruct path as [|k' path]; [done|]. apply IH.
Qed.

(** ** Validator entries *)

Section Validation.
  Variable call : nat → value → value.

(** Every function of the list is applied, in list order. *)
Lemma ap_functions (fs : list nat) (v : value) :
  R.ap call (VFun <$> fs) [v] = Ok ((λ f, call f v) <$> fs).
Proof.
  induction fs as [|f fs IH]; [done|].
  rewrite !fmap_cons. cbn [R.ap]. by rewrite IH.
Qed.

Lemma reject_complement (l : list value) :
  R.reject (R.complement Boolean) l = List.filter Boolean l.
Proof.
  unfold R.reject, R.complement. induction l as [|x l IH]; [done|]. simpl.
  rewrite IH. by destruct (Boolean x).
Qed.

Lemma filter_all_falsy (l : list value) :
  Forall (λ x, Boolean x = false) l → List.filter Boolean l = [].
Proof. induction 1 as [|x l Hx _ IH]; [done|]. simpl. by rewrite Hx. Qed.

(** [handleChange] at a path whose entry is a list of functions. *)
Lemma handleChange_list this path v fs :
  R.view (R.lensPath path) (p_validation (props this)) = VArr (VFun <$> fs) →
  handleChange call this path v =
    let message := default VNull (head (List.filter Boolean ((λ f, call f v) <$> fs))) in
    let this' := setState this (R.set (R.lensPath path) message (s_errors (state this)))
                               (R.set (R.lensPath path) v (s_data (state this))) in
    Ok (this', notifyChangeEvent this').
Proof.
  intros Hentry. unfold handleChange. rewrite Hentry. cbn [Boolean negb].
  rewrite ap_functions. cbn [fmap result_fmap mbind result_bind]. rewrite reject_complement.
  by destruct (List.filter Boolean _).
Qed.

(** [handleChange] at a path whose entry is a single function. *)
Lemma handleChange_single this path v f :
  R.view (R.lensPath path) (p_validation (props this)) = VFun f →
  handleChange call this path v =
    let message := call f (defaultToEmptyString v) in
    let this' := setState this (R.set (R.lensPath path) message (s_errors (state this)))
                               (R.set (R.lensPath path) v (s_data (state this))) in
    Ok (this', notifyChangeEvent this').
Proof.
  intros Hentry. unfold handleChange. rewrite Hentry. cbn [Boolean negb].
  by rewrite view_set.
Qed.

(** [handleChange] at a path whose entry is falsy. *)
Lemma handleChange_none this path v :
  Boolean (R.view (R.lensPath path) (p_validation (props this))) = false →
  handleChange call this path v =
    let this' := setState this (s_errors (state this))
                               (R.set (R.lensPath path) v (s_data (state this))) in
    Ok (this', notifyChangeEvent this').
Proof. intros Hentry. unfold handleChange. by rewrite Hentry. Qed.

End Validation.

(** ** The change handler *)

Section Change.
  Variable call : nat → value → value.

(** C4. A validator entry that is a list of functions: every function
    is applied to the value, in list order; [handleChange] records at
    the path the first truthy result when there is one and [null]
    otherwise.  [validateTree] computes the same first truthy result
    for a named element and files it under the element's name; with no
    truthy result it returns its accumulator as it is. *)
Theorem list_entry_first_failure_wins (this : Form) (path : list string) (v : value)
    (fs : list nat) :
  R.view (R.lensPath path) (p_validation (props this)) = VArr (VFun <$> fs) →
  let results := (λ f, call f v) <$> fs in
  let message := default VNull (head (List.filter Boolean results)) in
  R.ap call (VFun <$> fs) [v] = Ok results ∧
  (∃ this', handleChange call this path v = Ok (this', notifyChangeEvent this') ∧
     s_errors (state this') = R.set (R.lensPath path) message (s_errors (state this)) ∧
     R.view (R.lensPath path) (s_errors (state this')) = message) ∧
  (∀ errors name children parentPath,
     is_array children = false → named name = true → path = parentPath ++ [key name] →
     R.defaultTo (VStr "") (R.view (R.lensPath path) (s_data (state this))) = v →
     validateTree call this errors (NElem name children) parentPath =
       Ok (match head (List.filter Boolean results) with
           | Some error => R.assoc (key name) error errors
           | None => errors
           end)).
Proof.
  intros Hentry results message. split; [apply ap_functions|]. split.
  - eexists. split; [by apply handleChange_list|]. split; [done|].
    apply view_set.
  - intros errors name children parentPath Harr Hname -> Hv.
    assert (validateTree call this errors (NElem name children) parentPath =
            validateTree call this errors (NElem name NNil) parentPath) as ->
      by (by destruct children).
    cbn [validateTree]. rewrite Hname, Hentry. cbn [Boolean negb].
    rewrite Hv, ap_functions. cbn [fmap result_fmap mbind result_bind].
    rewrite reject_complement. fold results. by destruct (List.filter Boolean results).
Qed.

(** C5, as the code has it.  A change whose value passes validation
    overwrites the entry at the path with a falsy value: [null] when
    the validator entry is a list of functions, and the function's own
    falsy result ([false], [undefined], an empty string, ...) when the
    entry is a single function. *)
Theorem passing_change_overwrites_error (this : Form) (path : list string) (v : value) :
  (∀ fs, R.view (R.lensPath path) (p_validation (props this)) = VArr (VFun <$> fs) →
     Forall (λ f, Boolean (call f v) = false) fs →
     ∃ this', handleChange call this path v = Ok (this', notifyChangeEvent this') ∧
       s_errors (state this') = R.set (R.lensPath path) VNull (s_errors (state this)) ∧
       R.view (R.lensPath path) (s_errors (state this')) = VNull) ∧
  (∀ f, R.view (R.lensPath path) (p_validation (props this)) = VFun f →
     Boolean (call f (defaultToEmptyString v)) = false →
     ∃ this', handleChange call this path v = Ok (this', notifyChangeEvent this') ∧
       s_errors (state this') =
         R.set (R.lensPath path) (call f (defaultToEmptyString v)) (s_errors (state this)) ∧
       R.view (R.lensPath path) (s_errors (state this')) = call f (defaultToEmptyString v) ∧
       Boolean (R.view (R.lensPath path) (s_errors (state this'))) = false).
Proof.
  split.
  - intros fs Hentry Hpass. eexists. split; [by apply handleChange_list|].
    cbn [setState state s_errors].
    assert (List.filter Boolean ((λ f, call f v) <$> fs) = []) as ->.
    { apply filter_all_falsy. by apply Forall_fmap. }
    split; [done|]. apply view_set.
  - intros f Hentry Hpass. eexists. split; [by apply handleChange_single|].
    cbn [setState state s_errors]. rewrite view_set. done.
Qed.


End Change.

(** ** The tree walk *)

(** Induction over elements as [validateTree] takes them apart: an
    element whose children are an array, with the property for every
    child, or an element with any other children. *)
Lemma node_walk_ind (P : node → Prop) :
  P NNil → (∀ s, P (NText s)) → P NPlain → (∀ l, P (NArr l)) →
  (∀ name children, Forall P children → P (NElem name (NArr children))) →
  (∀ name children, is_array children = false → P (NElem name children)) →
  ∀ element, P element.
Proof.
  intros HNil HText HPlain HArr HWalk HLeaf.
  fix go 1. intros [| s | | l | name children]; [done..|].
  destruct children as [| s | | children | name' children'];
    [by apply HLeaf..| |by apply HLeaf].
  apply HWalk. revert children. fix walk 1.
  intros [|child children]; constructor; [apply go | apply walk].
Qed.

Section Walk.
  Variable call : nat → value → value.
  Variable this : Form.

Lemma validateTree_walk errors name children parentPath :
  validateTree call this errors (NElem name (NArr children)) parentPath =
    let path := if named name then parentPath ++ [key name] else parentPath in
    validated ← R.reduce (λ acc child, validateTree call this acc child path) (VObj ∅) children;
    if (0 <? length path)%nat
    then Ok (R.assoc (key name) validated errors)
    else Ok validated.
Proof. done. Qed.

Lemma validateTree_leaf errors name children parentPath :
  is_array children = false →
  validateTree call this errors (NElem name children) parentPath =
    validateTree call this errors (NElem name NNil) parentPath.
Proof. by destruct children. Qed.

Lemma applicable_list (fs : list value) :
  forallb is_function fs = true → ∃ ids : list nat, fs = VFun <$> ids.
Proof.
  induction fs as [|f fs IH]; [by exists []|]. simpl.
  intros [Hf Hfs]%andb_prop. destruct (IH Hfs) as [ids ->].
  destruct f; try done. by eexists (_ :: ids).
Qed.

(** On a well-formed form the walk returns an error tree. *)
Lemma validateTree_total element :
  ∀ errors parentPath,
    visitable element = true →
    Forall (λ p, applicable (R.view (R.lensPath p) (p_validation (props this))) = true)
      (fields parentPath element) →
    ∃ errors', validateTree call this errors element parentPath = Ok errors'.
Proof.
  induction element as [| s | | l | name children IH | name children Hleaf] using node_walk_ind;
    intros errors parentPath Hvis Hfields; try done; try (by eexists).
  - rewrite validateTree_walk. cbn [fields] in Hfields. cbn zeta.
    set (path := if named name then parentPath ++ [key name] else parentPath) in *.
    assert (∀ acc, ∃ validated,
      R.reduce (λ acc child, validateTree call this acc child path) acc children = Ok validated)
      as Hreduce.
    { cbn [visitable] in Hvis. clear errors.
      induction children as [|child children IHc]; intros acc; [by eexists|].
      apply Forall_cons in IH as [IHchild IH].
      cbn [forallb] in Hvis. apply andb_prop in Hvis as [Hchild Hvis].
      cbn [flat_map] in Hfields. apply Forall_app in Hfields as [Hfchild Hfields].
      destruct (IHchild acc path Hchild Hfchild) as [acc' Hacc'].
      cbn [R.reduce]. rewrite Hacc'. cbn [mbind result_bind]. by apply IHc. }
    destruct (Hreduce (VObj ∅)) as [validated ->]. cbn [mbind result_bind].
    destruct (0 <? length path)%nat; by eexists.
  - rewrite validateTree_leaf by done. cbn [validateTree].
    destruct (named name) eqn:Hname; [|by eexists].
    assert (fields parentPath (NElem name children) = [parentPath ++ [key name]]) as Hf
      by (destruct children; cbn [fields]; by rewrite ?Hname).
    rewrite Hf, Forall_singleton in Hfields.
    destruct (R.view _ (p_validation _)) as [| | b | n | s | f | fs | m] eqn:Hentry;
      cbn [applicable Boolean negb] in *; try done; try (by eexists);
      try (rewrite Hfields; by eexists).
    + cbn [R.invoke mbind result_bind]. destruct (negb _); by eexists.
    + destruct (applicable_list _ Hfields) as [ids ->]. rewrite ap_functions.
      cbn [fmap result_fmap mbind result_bind]. destruct (R.reject _ _); by eexists.
Qed.

End Walk.

(** ** Submission and the lifecycle hooks *)

Lemma setState_same (this : Form) :
  setState this (s_errors (state this)) (s_data (state this)) = this.
Proof. by destruct this as [p [e d]]. Qed.

Lemma path_through_leaf pre k rest t :
  prop (R.path pre t) k = VUndef →
  R.path (pre ++ k :: rest) t = VUndef.
Proof.
  intros Hprop. destruct (path_app pre (k :: rest) t) as [-> | ->]; [|done].
  cbn [R.path]. destruct (R.isNil _); [done|]. rewrite Hprop. apply path_undef.
Qed.

Section Lifecycle.
  Variable call : nat → value → value.


(** C9, as the code has it.  Nothing checks the shape of the validator
    tree against the path; resolution reads properties, one key after
    the other.  When a path runs through a validator entry (a function
    or a list of functions standing where the path expects a keyed
    node) and the entry holds nothing under the next key of the path
    (reading it gives [undefined]: the key is no index of the list, not
    [length] or [name], no member of a prototype), the change is
    handled as that of a field without validator: the data tree
    updated, the error tree untouched, nothing signalled.  When a path
    ends on a keyed node of the validator tree, the change fails with
    the [TypeError] of calling what is not a function. *)
Theorem shape_mismatch_is_not_checked (this : Form) :
  (∀ pre k rest v,
     is_entry (R.view (R.lensPath pre) (p_validation (props this))) = true →
     prop (R.view (R.lensPath pre) (p_validation (props this))) k = VUndef →
     ∃ this', handleChange call this (pre ++ k :: rest) v = Ok (this', notifyChangeEvent this') ∧
       s_errors (state this') = s_errors (state this) ∧
       s_data (state this') = R.set (R.lensPath (pre ++ k :: rest)) v (s_data (state this))) ∧
  (∀ path v m,
     R.view (R.lensPath path) (p_validation (props this)) = VObj m →
     handleChange call this path v = Throw TypeError).
Proof.
  split.
  - intros pre k rest v Hentry Hprop.
    eexists. split; [apply handleChange_none|done].
    unfold R.view, R.lensPath in *; cbn [R.getter] in *.
    by rewrite path_through_leaf.
  - intros path v m Hentry. unfold handleChange. by rewrite Hentry.
Qed.

(** C10. An element whose [children] are not an array and that has no
    name is passed over: [validateTree] returns its accumulator.  The
    form itself is such an element when it has a single child, so its
    initial validation and its submission validate no field: the error
    tree stays what it was. *)
Theorem single_child_form_is_not_validated :
  (∀ this errors name children parentPath,
     is_array children = false → named name = false →
     validateTree call this errors (NElem name children) parentPath = Ok errors) ∧
  (∀ p, is_array (p_children p) = false →
     componentWillMount call (constructor p) = Ok (constructor p)) ∧
  (∀ this, is_array (p_children (props this)) = false →
     handleSubmit call this = Ok (this, [Submitted (s_data (state this))])).
Proof.
  assert (∀ this errors name children parentPath,
     is_array children = false → named name = false →
     validateTree call this errors (NElem name children) parentPath = Ok errors) as Hskip.
  { intros this errors name children parentPath Harr Hname.
    rewrite validateTree_leaf by done. cbn [validateTree]. by rewrite Hname. }
  split; [done|]. split.
  - intros p Harr. unfold componentWillMount, self.
    destruct (Boolean (p_data (props (constructor p)))); [|done].
    by rewrite Hskip.
  - intros this Harr. unfold handleSubmit, self. rewrite Hskip by done.
    cbn [mbind result_bind]. by rewrite setState_same.
Qed.

(** When the children of the form are an array, the error tree of a
    submission does not depend on the error tree before it. *)
Lemma submit_ignores_prior_errors (this : Form) (errors errors' : value) :
  is_array (p_children (props this)) = true →
  validateTree call this errors (self this) [] = validateTree call this errors' (self this) [].
Proof.
  unfold self. by destruct (p_children (props this)).
Qed.

(** What [componentWillReceiveProps] does: new data that is truthy and
    differs from the data prop passed before is adopted, together with
    the error tree [validateTree] computes in the component as it still
    is; otherwise the state stays. *)
Lemma componentWillReceiveProps_cases (this : Form) (nextProps : Props) :
  componentWillReceiveProps call this nextProps =
    if decide (Boolean (p_data nextProps) = true ∧ p_data nextProps ≠ p_data (props this))
    then errors ← validateTree call this (s_errors (state this)) (self this) [];
         Ok {| props := nextProps;
               state := {| s_errors := errors; s_data := p_data nextProps |} |}
    else Ok {| props := nextProps; state := state this |}.
Proof.
  unfold componentWillReceiveProps, R.equals.
  case_decide as Hnew.
  - destruct Hnew as [-> Hne]. rewrite bool_decide_eq_false_2 by done.
    cbn [andb negb]. by destruct (validateTree _ _ _ _ _).
  - destruct (Boolean (p_data nextProps)); cbn [andb]; [|done].
    rewrite bool_decide_eq_true_2; [done|].
    destruct (decide (p_data nextProps = p_data (props this))); [done|].
    by destruct Hnew.
Qed.

(** A form whose children are an array is revalidated from scratch on
    submission: the stored error tree is the one [validateTree] builds
    from [{}], as on mounting. *)
Theorem submit_revalidates_from_scratch (this : Form) :
  is_array (p_children (props this)) = true →
  handleSubmit call this =
    errors ← validateTree call this (VObj ∅) (self this) [];
    Ok (setState this errors (s_data (state this)), [Submitted (s_data (state this))]).
Proof.
  intros Harr. unfold handleSubmit.
  by rewrite (submit_ignores_prior_errors this (s_errors (state this)) (VObj ∅)).
Qed.

End Lifecycle.

(** ** Sharing: a write leaves the paths that part from it alone *)




Lemma path_cons_obj k p m :
  ordinary k → R.path (k :: p) (VObj m) = R.path p (default VUndef (m !! k)).
Proof. intros [Hk _]. cbn [R.path R.isNil]. by rewrite prop_VObj, Hk. Qed.

Lemma keyed_along_undef p : keyed_along p VUndef.
Proof. destruct p; simpl; by auto. Qed.

Lemma keyed_along_empty p : keyed_along p (VObj ∅).
Proof.
  destruct p as [|k p]; simpl; [done|]. right. exists ∅. split; [done|].
  rewrite lookup_empty. apply keyed_along_undef.
Qed.


Lemma path_keyed_missing p m k :
  ordinary k → m !! k = None → R.path (k :: p) (VObj m) = VUndef.
Proof. intros Hord Hk. rewrite path_cons_obj, Hk by done. apply path_undef. Qed.

(** Writing at [q] changes nothing at a path [p] of ordinary keys that
    parts from [q], in a tree keyed along [p]; and the tree stays keyed
    along [p]. *)
Lemma assocPath_frame p : ∀ q x t,
  Forall ordinary p → diverge p q → keyed_along p t →
  R.path p (R.assocPath q x t) = R.path p t ∧ keyed_along p (R.assocPath q x t).
Proof.
  induction p as [|k p IH]; intros [|k' q] x t Hord; simpl diverge; try done.
  apply Forall_cons in Hord as [Hk Hord].
  intros Hdiv Hkeyed. rewrite assocPath_cons. unfold R.assoc. rewrite path_cons_obj by done.
  assert (∃ m, enumerable t = m ∧ R.path (k :: p) t = R.path p (default VUndef (m !! k)) ∧
    keyed_along p (default VUndef (m !! k)) ∧
    (if negb (R.isNil t) && R.has k t then prop t k else VObj ∅) =
      match m !! k with Some y => y | None => VObj ∅ end) as (m & -> & -> & Hrest & Hnext).
  { destruct Hkeyed as [-> | (m & -> & Hrest)].
    - exists ∅. rewrite lookup_empty. cbn [default from_option id]. rewrite !path_undef.
      repeat split. apply keyed_along_undef.
    - exists m. rewrite path_cons_obj by done. repeat split; [done|].
      cbn [R.isNil negb andb]. unfold R.has. rewrite own_VObj, prop_VObj.
      destruct (m !! k); [by rewrite bool_decide_eq_true_2 | by rewrite bool_decide_eq_false_2]. }
  cbn [keyed_along]. destruct (decide (k = k')) as [<- | Hne].
  - destruct Hdiv as [? | Hdiv]; [done|].
    rewrite lookup_insert_eq. cbn [default from_option id].
    destruct q as [|k'' q]; [by destruct p|]. cbv match.
    assert (p ≠ []) as Hp by (by destruct p).
    destruct (m !! k) as [y|] eqn:Hy; cbn [default from_option id] in *.
    + rewrite Hnext. destruct (IH (k'' :: q) x y Hord Hdiv Hrest) as [-> Hk'].
      split; [done|]. right. eexists. split; [done|]. by rewrite lookup_insert_eq.
    + rewrite Hnext.
      destruct (IH (k'' :: q) x (VObj ∅) Hord Hdiv (keyed_along_empty p)) as [-> Hk'].
      split.
      { destruct p as [|k0 p]; [done|]. apply Forall_cons in Hord as [Hk0 _].
        rewrite path_keyed_missing by done. by rewrite path_undef. }
      right. eexists. split; [done|]. by rewrite lookup_insert_eq.
  - rewrite lookup_insert_ne by done. split; [done|].
    right. eexists. split; [done|]. by rewrite lookup_insert_ne.
Qed.

(** Structural sharing: a write through the lens of [q] leaves what
    the lens of [p] views as it was, when the two paths part ways, the
    tree is keyed along [p] and the keys of [p] are ordinary (under a
    key such as [toString] a fresh node reads otherwise than a missing
    one). *)
Theorem set_leaves_parted_paths_alone (p q : list string) (x t : value) :
  Forall ordinary p → diverge p q → keyed_along p t →
  R.view (R.lensPath p) (R.set (R.lensPath q) x t) = R.view (R.lensPath p) t.
Proof.
  intros Hord Hdiv Hkeyed. rewrite !view_lensPath, set_lensPath.
  by destruct (assocPath_frame p q x t Hord Hdiv Hkeyed).
Qed.

(** ** Changes one after the other *)

Section Incremental.
  Variable call : nat → value → value.





End Incremental.

(** ** The fields of a regular form *)

Lemma fields_leaf name children parentPath :
  is_array children = false →
  fields parentPath (NElem name children) =
    if named name then [parentPath ++ [key name]] else [].
Proof. by destruct children. Qed.








(** ** The full walk over a regular form *)

Section Full.
  Variable call : nat → value → value.
  Variable this : Form.

Lemma defaultTo_idem d x : R.defaultTo (VStr d) (R.defaultTo (VStr d) x) = R.defaultTo (VStr d) x.
Proof. by destruct x. Qed.

Lemma filter_head_truthy (l : list value) e rest :
  List.filter Boolean l = e :: rest → Boolean e = true.
Proof.
  intros Hl. assert (In e (List.filter Boolean l)) as Hin by (rewrite Hl; by left).
  by apply filter_In in Hin as [_ ?].
Qed.

(** The walk at a field: its message, filed under its name when truthy. *)
Lemma validateTree_field errors name children parentPath :
  is_array children = false → named name = true →
  validateTree call this errors (NElem name children) parentPath =
    r ← messageAt call this (parentPath ++ [key name]);
    Ok (if Boolean r then R.assoc (key name) r errors else errors).
Proof.
  intros Harr Hname. rewrite validateTree_leaf by done. cbn [validateTree].
  rewrite Hname. unfold messageAt, fieldMessage.
  destruct (Boolean (R.view _ (p_validation _))) eqn:Hb; cbn [negb]; [|done].
  destruct (R.view _ (p_validation _)) as [| | b | n | s | f | fs | m];
    unfold defaultToEmptyString; rewrite ?defaultTo_idem;
    try (cbn [R.invoke mbind result_bind]; done);
    try (cbn [R.invoke mbind result_bind]; by destruct (Boolean (call _ _))).
  destruct (R.ap call fs _) as [results|]; cbn [fmap result_fmap mbind result_bind]; [|done].
  rewrite reject_complement. destruct (List.filter Boolean results) as [|e rest] eqn:Hf; [done|].
  cbn [head default from_option id]. by rewrite (filter_head_truthy _ _ _ Hf).
Qed.



End Full.

(** ** Incremental and full validation *)




(** ** Changes: failure, notification, order *)

(** The object [assocPath] goes on with below key [k]. *)
Lemma next_of_assoc k a t :
  (if negb (R.isNil (R.assoc k a t)) && R.has k (R.assoc k a t)
   then prop (R.assoc k a t) k else VObj ∅) = a.
Proof.
  unfold R.assoc, R.has. cbn [R.isNil negb andb]. rewrite own_VObj, prop_VObj, lookup_insert_eq.
  by rewrite bool_decide_eq_true_2.
Qed.

Lemma assoc_assoc k a b t : R.assoc k a (R.assoc k b t) = R.assoc k a t.
Proof. unfold R.assoc. cbn [enumerable]. by rewrite insert_insert_eq. Qed.

Lemma next_of_assoc_ne k k' b t :
  k ≠ k' →
  (if negb (R.isNil (R.assoc k' b t)) && R.has k (R.assoc k' b t)
   then prop (R.assoc k' b t) k else VObj ∅) =
    match enumerable t !! k with Some y => y | None => VObj ∅ end.
Proof.
  intros Hne. unfold R.assoc, R.has. cbn [R.isNil negb andb].
  rewrite own_VObj, prop_VObj, lookup_insert_ne by done.
  destruct (enumerable t !! k); [by rewrite bool_decide_eq_true_2 | by rewrite bool_decide_eq_false_2].
Qed.

Lemma assoc_commute k k' a b t :
  k ≠ k' → R.assoc k a (R.assoc k' b t) = R.assoc k' b (R.assoc k a t).
Proof. intros Hne. unfold R.assoc. cbn [enumerable]. by rewrite insert_insert_ne. Qed.

(** Writing twice at one path: the second write is all that shows. *)
Lemma assocPath_twice p : ∀ x y t,
  R.assocPath p x (R.assocPath p y t) = R.assocPath p x t.
Proof.
  induction p as [|k p IH]; intros x y t; [done|].
  rewrite (assocPath_cons k p y t). rewrite !assocPath_cons.
  rewrite next_of_assoc, assoc_assoc. f_equal.
  destruct p as [|k' p]; [done|]. apply IH.
Qed.

(** What [assocPath] goes on with below [k], in a tree that is keyed
    at its root or missing. *)
Lemma next_of_keyed k t :
  (t = VUndef ∨ ∃ m, t = VObj m) →
  (if negb (R.isNil t) && R.has k t then prop t k else VObj ∅) =
    match enumerable t !! k with Some y => y | None => VObj ∅ end ∧
  (t = VUndef ∨ ∃ m, t = VObj m).
Proof.
  intros Ht. split; [|done]. destruct Ht as [-> | [m ->]]; [done|].
  cbn [R.isNil negb andb enumerable]. unfold R.has. rewrite own_VObj, prop_VObj.
  destruct (m !! k); [by rewrite bool_decide_eq_true_2 | by rewrite bool_decide_eq_false_2].
Qed.

Lemma keyed_along_root k p t : keyed_along (k :: p) t → t = VUndef ∨ ∃ m, t = VObj m.
Proof. intros [-> | (m & -> & _)]; [by left | right; by eexists]. Qed.

Lemma keyed_along_next k p t :
  keyed_along (k :: p) t →
  keyed_along p (match enumerable t !! k with Some y => y | None => VObj ∅ end).
Proof.
  intros [-> | (m & -> & Hrest)]; cbn [enumerable].
  - rewrite lookup_empty. apply keyed_along_empty.
  - destruct (m !! k); [done | apply keyed_along_empty].
Qed.

(** Writes at two paths that part ways can be done in either order. *)
Lemma assocPath_commute p : ∀ q x y t,
  diverge p q → keyed_along p t →
  R.assocPath p x (R.assocPath q y t) = R.assocPath q y (R.assocPath p x t).
Proof.
  induction p as [|k p IH]; intros [|k' q] x y t; simpl diverge; try done.
  intros Hdiv Hkeyed.
  pose proof (keyed_along_root _ _ _ Hkeyed) as Hroot.
  rewrite (assocPath_cons k' q y t), (assocPath_cons k p x t).
  destruct (next_of_keyed k t Hroot) as [-> _]. destruct (next_of_keyed k' t Hroot) as [-> _].
  destruct (decide (k = k')) as [<- | Hne].
  - destruct Hdiv as [? | Hdiv]; [done|].
    rewrite !assocPath_cons, !next_of_assoc, !assoc_assoc. f_equal.
    destruct p as [|k1 p]; [done|]. destruct q as [|k2 q]; [done|].
    apply IH; [done|]. by apply keyed_along_next in Hkeyed.
  - rewrite !assocPath_cons, !next_of_assoc_ne by done. apply assoc_commute. done.
Qed.

Section Changes.
  Variable call : nat → value → value.

Lemma ap_throws fs v :
  forallb is_function fs = false → R.ap call fs [v] = Throw TypeError.
Proof.
  induction fs as [|f fs IH]; [done|]. cbn [forallb R.ap].
  destruct f; try done. cbn [is_function andb]. intros Hfs.
  cbn [R.traverse R.invoke mbind result_bind]. by rewrite IH.
Qed.

(** The message of a field is there exactly for an applicable entry,
    whatever the value. *)
Lemma fieldMessage_applicable entry v :
  fieldMessage call entry v =
    if applicable entry
    then fieldMessage call entry v
    else Throw TypeError.
Proof.
  destruct (applicable entry) eqn:Happ; [done|]. unfold fieldMessage.
  destruct entry as [| | b | n | s | f | fs | m]; cbn [applicable Boolean] in *;
    try done; try (by destruct (negb _)).
  by rewrite ap_throws.
Qed.

Lemma fieldMessage_returns entry v :
  applicable entry = true → ∃ r, fieldMessage call entry v = Ok r.
Proof.
  intros Happ. unfold fieldMessage.
  destruct entry as [| | b | n | s | f | fs | m]; cbn [applicable Boolean negb] in *;
    try done; try (by eexists); try (rewrite Happ; by eexists).
  destruct (applicable_list _ Happ) as [ids ->]. rewrite ap_functions. by eexists.
Qed.

(** [handleChange] in one equation: the message of the field, then the
    two writes and the notification. *)
Lemma handleChange_eq this p v :
  handleChange call this p v =
    r ← fieldMessage call (R.path p (p_validation (props this))) v;
    let this' :=
      setState this
        (if Boolean (R.path p (p_validation (props this)))
         then R.assocPath p r (s_errors (state this))
         else s_errors (state this))
        (R.assocPath p v (s_data (state this))) in
    Ok (this', notifyChangeEvent this').
Proof.
  unfold handleChange, fieldMessage, R.view, R.set, R.lensPath; cbn [R.getter R.setter].
  destruct (Boolean (R.path p _)) eqn:Hb; cbn [negb]; [|done].
  rewrite path_assocPath.
  destruct (R.path p (p_validation _)) as [| | b | n | s | f | fs | m];
    cbn [R.invoke mbind result_bind]; try done.
  destruct (R.ap call fs [v]) as [results|]; cbn [fmap result_fmap mbind result_bind]; [|done].
  by destruct (R.reject _ results).
Qed.

(** A change whose validator entry is resolved through own properties
    fails, with a [TypeError], exactly when the entry is something
    truthy that cannot be applied: neither a function nor a list of
    functions (a keyed node, a message, the [length] of a function).
    The value plays no part in it.  (An entry found on a prototype
    chain is a function of the host, which may or may not throw when
    called as a validator.) *)
Theorem change_throws_exactly_on_bad_entry (this : Form) (path : list string) (v : value) :
  own_along path (p_validation (props this)) = true →
  (handleChange call this path v = Throw TypeError ↔
   applicable (R.view (R.lensPath path) (p_validation (props this))) = false).
Proof.
  intros _. rewrite handleChange_eq, view_lensPath.
  destruct (applicable (R.path path _)) eqn:Happ.
  - destruct (fieldMessage_returns _ v Happ) as [r ->]. done.
  - by rewrite fieldMessage_applicable, Happ.
Qed.

(** A change that returns has written the value into the data tree,
    left the props alone, and told the change handler, when there is
    one, once, with the data and the errors now stored. *)
Theorem change_notifies_stored_state (this this' : Form) (path : list string) (v : value)
    (notices : list notice) :
  handleChange call this path v = Ok (this', notices) →
  props this' = props this ∧
  s_data (state this') = R.set (R.lensPath path) v (s_data (state this)) ∧
  notices = if p_onChange (props this)
            then [Changed (s_data (state this')) (s_errors (state this'))]
            else [].
Proof.
  rewrite handleChange_eq. destruct (fieldMessage _ _ _) as [r|]; [|done].
  cbn [mbind result_bind]. intros [= <- <-]. done.
Qed.

(** Two changes at one path: only the second shows.  The state after
    both is the state after the second alone, and both sessions fail
    alike. *)
Theorem last_change_wins (this : Form) (path : list string) (v1 v2 : value) :
  handleChanges call this [(path, v1); (path, v2)] = handleChanges call this [(path, v2)].
Proof.
  cbn [handleChanges]. rewrite !handleChange_eq.
  destruct (applicable (R.path path (p_validation (props this)))) eqn:Happ.
  - destruct (fieldMessage_returns _ v1 Happ) as [r1 Hr1].
    destruct (fieldMessage_returns _ v2 Happ) as [r2 Hr2].
    rewrite Hr1, Hr2. cbn [mbind result_bind fst]. rewrite handleChange_eq.
    cbn [setState props state s_errors s_data]. rewrite Hr2. cbn [mbind result_bind fst].
    unfold setState. cbn [props state s_errors s_data]. rewrite assocPath_twice.
    by destruct (Boolean _); rewrite ?assocPath_twice.
  - by rewrite (fieldMessage_applicable _ v1), (fieldMessage_applicable _ v2), Happ.
Qed.

(** Changes at two paths that part ways commute: in a state whose data
    and error trees are keyed along the first path, either order leads
    to the same state, or both fail. *)
Theorem parted_changes_commute (this : Form) (p q : list string) (v w : value) :
  diverge p q →
  keyed_along p (s_data (state this)) →
  keyed_along p (s_errors (state this)) →
  handleChanges call this [(p, v); (q, w)] = handleChanges call this [(q, w); (p, v)].
Proof.
  intros Hdiv Hdata Herrors. cbn [handleChanges]. rewrite !handleChange_eq.
  destruct (applicable (R.path p (p_validation (props this)))) eqn:Hp;
    destruct (applicable (R.path q (p_validation (props this)))) eqn:Hq.
  - destruct (fieldMessage_returns _ v Hp) as [r Hr].
    destruct (fieldMessage_returns _ w Hq) as [s Hs].
    rewrite Hr, Hs. cbn [mbind result_bind fst]. rewrite !handleChange_eq.
    cbn [setState props state s_errors s_data]. rewrite Hr, Hs. cbn [mbind result_bind fst].
    unfold setState. cbn [props state s_errors s_data].
    rewrite (assocPath_commute p q v w) by done.
    destruct (Boolean (R.path p _)), (Boolean (R.path q _)); try done.
    by rewrite (assocPath_commute p q r s).
  - destruct (fieldMessage_returns _ v Hp) as [r Hr].
    rewrite Hr, (fieldMessage_applicable _ w), Hq. cbn [mbind result_bind fst].
    rewrite handleChange_eq. cbn [setState props].
    by rewrite (fieldMessage_applicable _ w), Hq.
  - destruct (fieldMessage_returns _ w Hq) as [s Hs].
    rewrite Hs, (fieldMessage_applicable _ v), Hp. cbn [mbind result_bind fst].
    rewrite handleChange_eq. cbn [setState props].
    by rewrite (fieldMessage_applicable _ v), Hp.
  - by rewrite (fieldMessage_applicable _ v), (fieldMessage_applicable _ w), Hp, Hq.
Qed.

End Changes.

(** ** When the walk returns *)

Section WalkOutcome.
  Variable call : nat → value → value.

Lemma reduce_cons {A B} (f : A → B → result A) acc x l :
  R.reduce f acc (x :: l) = acc' ← f acc x; R.reduce f acc' l.
Proof. done. Qed.

Lemma reduce_ext {A B} (f g : A → B → result A) l :
  Forall (λ x, ∀ acc, f acc x = g acc x) l → ∀ acc, R.reduce f acc l = R.reduce g acc l.
Proof.
  induction 1 as [|x l Hx _ IH]; intros acc; [done|].
  rewrite !reduce_cons, Hx. destruct (g acc x); [apply IH | done].
Qed.

(** The walk reads of the component its validator spec and its data,
    nothing else. *)
Lemma validateTree_ext (this this' : Form) element :
  p_validation (props this) = p_validation (props this') →
  s_data (state this) = s_data (state this') →
  ∀ errors pp,
    validateTree call this errors element pp = validateTree call this' errors element pp.
Proof.
  intros Hv Hd.
  induction element as [| s | | l | name children IH | name children Hleaf] using node_walk_ind;
    intros errors pp; try done.
  - rewrite !validateTree_walk. cbn zeta.
    by rewrite (reduce_ext _ (λ acc child, validateTree call this' acc child
                 (if named name then pp ++ [key name] else pp)))
      by (eapply Forall_impl; [exact IH|]; by intros child Hc acc).
  - rewrite !(validateTree_leaf _ _ _ _ children) by done. cbn [validateTree].
    by rewrite Hv, Hd.
Qed.

Lemma reduce_returns (this : Form) children pp acc validated :
  R.reduce (λ acc child, validateTree call this acc child pp) acc children = Ok validated →
  Forall (λ child, ∃ acc acc', validateTree call this acc child pp = Ok acc') children.
Proof.
  revert acc. induction children as [|child children IH]; intros acc Hr; [done|].
  rewrite reduce_cons in Hr.
  destruct (validateTree call this acc child pp) as [acc'|] eqn:Hchild; [|done].
  constructor; [by eexists _, _ | by eapply IH].
Qed.

(** When the walk returns, it met no [null] and only applicable entries. *)
Lemma validateTree_returns (this : Form) element :
  ∀ errors pp errors',
    validateTree call this errors element pp = Ok errors' →
    visitable element = true ∧
    Forall (λ p, applicable (R.view (R.lensPath p) (p_validation (props this))) = true)
      (fields pp element).
Proof.
  induction element as [| s | | l | name children IH | name children Hleaf] using node_walk_ind;
    intros errors pp errors' Hwalk; try done.
  - rewrite validateTree_walk in Hwalk. cbn zeta in Hwalk. cbn [visitable fields].
    set (path := if named name then pp ++ [key name] else pp) in *.
    destruct (R.reduce _ _ _) as [validated|] eqn:Hreduce; [|done].
    apply reduce_returns in Hreduce. clear Hwalk.
    induction children as [|child children IHc]; [done|].
    apply Forall_cons in IH as [IHchild IH]. apply Forall_cons in Hreduce as [Hchild Hreduce].
    destruct Hchild as (acc & acc' & Hchild).
    destruct (IHchild _ _ _ Hchild) as [Hvis Hf]. destruct (IHc IH Hreduce) as [Hvis' Hf'].
    cbn [forallb flat_map]. rewrite Hvis, Hvis'. split; [done|]. by apply Forall_app.
  - split; [by destruct children|]. rewrite fields_leaf by done.
    destruct (named name) eqn:Hname; [|done]. apply Forall_singleton.
    rewrite validateTree_field in Hwalk by done. unfold messageAt in Hwalk.
    rewrite fieldMessage_applicable in Hwalk.
    by destruct (applicable _).
Qed.

(** The walk returns exactly on well-formed input. *)
Lemma validateTree_returns_iff (this : Form) element errors pp :
  (∃ errors', validateTree call this errors element pp = Ok errors') ↔
  visitable element = true ∧
  Forall (λ p, applicable (R.view (R.lensPath p) (p_validation (props this))) = true)
    (fields pp element).
Proof.
  split.
  - intros [errors' Hwalk]. by eapply validateTree_returns.
  - intros [Hvis Hf]. by apply validateTree_total.
Qed.

Lemma well_formed_spec (this : Form) :
  well_formed this = true ↔
  visitable (self this) = true ∧
  Forall (λ p, applicable (R.view (R.lensPath p) (p_validation (props this))) = true)
    (fields [] (self this)).
Proof.
  unfold well_formed. rewrite andb_true_iff, forallb_forall, Forall_forall.
  by setoid_rewrite list_elem_of_In.
Qed.

(** Submission of a form whose validator entries are resolved through
    own properties fails, with a [TypeError] and before the submit
    handler is called, exactly when the form is not well-formed: when
    there is a [null] among the children the walk visits, or a
    validator entry at a field path that cannot be applied. *)
Theorem submit_throws_exactly_on_ill_formed (this : Form) :
  own_resolved this = true →
  (handleSubmit call this = Throw TypeError ↔ well_formed this = false).
Proof.
  intros _. unfold handleSubmit.
  destruct (validateTree call this (s_errors (state this)) (self this) []) as [errors|[]] eqn:Hwalk.
  - assert (well_formed this = true) as ->; [|done].
    apply well_formed_spec. by eapply validateTree_returns.
  - cbn [mbind result_bind]. split; [intros _|done].
    destruct (well_formed this) eqn:Hwf; [|done].
    apply well_formed_spec, (validateTree_returns_iff this _ (s_errors (state this)) []) in Hwf
      as [errors Herrors].
    congruence.
Qed.

End WalkOutcome.

(** ** What the walk leaves behind *)

Section WalkInvariant.
  Variable call : nat → value → value.
  Variable this : Form.

Lemma truthy_entries_assoc k v m :
  Boolean v = true → truthy_entries m → truthy_entries (<[k := v]> m).
Proof. intros Hv Hm. by apply map_Forall_insert_2. Qed.

Lemma reduce_keeps_object children pp :
  Forall (λ child, ∀ m pp errors',
    validateTree call this (VObj m) child pp = Ok errors' →
    ∃ m', errors' = VObj m' ∧ (truthy_entries m → truthy_entries m')) children →
  ∀ m validated,
    R.reduce (λ acc child, validateTree call this acc child pp) (VObj m) children = Ok validated →
    ∃ m', validated = VObj m' ∧ (truthy_entries m → truthy_entries m').
Proof.
  induction 1 as [|child children Hchild _ IH]; intros m validated Hr.
  - injection Hr as <-. by exists m.
  - rewrite reduce_cons in Hr.
    destruct (validateTree call this (VObj m) child pp) as [acc|] eqn:Hc; [|done].
    destruct (Hchild _ _ _ Hc) as (m1 & -> & H1).
    destruct (IH _ _ Hr) as (m' & -> & H'). exists m'. split; [done|]. auto.
Qed.

Lemma validateTree_keeps_object element :
  ∀ m pp errors',
    validateTree call this (VObj m) element pp = Ok errors' →
    ∃ m', errors' = VObj m' ∧ (truthy_entries m → truthy_entries m').
Proof.
  induction element as [| s | | l | name children IH | name children Hleaf] using node_walk_ind;
    intros m pp errors' Hwalk; try done; try (injection Hwalk as <-; by exists m).
  - rewrite validateTree_walk in Hwalk. cbn zeta in Hwalk.
    destruct (R.reduce _ _ _) as [validated|] eqn:Hreduce; [|done].
    apply (reduce_keeps_object _ _ IH) in Hreduce as (mv & -> & Hmv).
    assert (truthy_entries mv) as Htruthy by (apply Hmv, map_Forall_empty).
    cbn [mbind result_bind] in Hwalk. destruct (0 <? length _)%nat; injection Hwalk as <-.
    + eexists. split; [done|]. intros Hm. by apply truthy_entries_assoc.
    + by exists mv.
  - destruct (named name) eqn:Hname.
    + rewrite validateTree_field in Hwalk by done.
      destruct (messageAt call this _) as [r|]; [|done]. cbn [mbind result_bind] in Hwalk.
      injection Hwalk as <-. destruct (Boolean r) eqn:Hr; [|by exists m].
      eexists. split; [done|]. intros Hm. by apply truthy_entries_assoc.
    + rewrite validateTree_leaf in Hwalk by done. cbn [validateTree] in Hwalk.
      rewrite Hname in Hwalk. injection Hwalk as <-. by exists m.
Qed.

End WalkInvariant.

Section Resubmission.
  Variable call : nat → value → value.

(** The walk over an object accumulator gives an object, and writes
    truthy entries only: no [null], no falsy answer of a validator. *)
Theorem walk_files_truthy_entries (this : Form) (element : node) (m : gmap string value)
    (parentPath : list string) (errors' : value) :
  validateTree call this (VObj m) element parentPath = Ok errors' →
  ∃ m', errors' = VObj m' ∧ (truthy_entries m → truthy_entries m').
Proof. apply validateTree_keeps_object. Qed.

(** An error tree the walk computed over the form is what the walk
    computes again with it as the accumulator, in any component with
    the same children, validator spec and data. *)
Lemma validateTree_settled (this this1 : Form) (acc errors : value) :
  validateTree call this acc (self this) [] = Ok errors →
  props this1 = props this → s_data (state this1) = s_data (state this) →
  validateTree call this1 errors (self this1) [] = Ok errors.
Proof.
  intros Hwalk Hprops Hdata. unfold self in *. rewrite Hprops.
  rewrite (validateTree_ext call this1 this) by (by rewrite ?Hprops).
  destruct (p_children (props this)) as [| | | children |] eqn:Hc;
    try (by injection Hwalk as <-).
  by rewrite <- Hwalk.
Qed.

(** Submitting twice is submitting once: the second submission finds
    the state the first one left and leaves it, with the same call of
    the submit handler. *)
Theorem submit_is_idempotent (this this1 : Form) (notices : list notice) :
  handleSubmit call this = Ok (this1, notices) →
  handleSubmit call this1 = Ok (this1, notices).
Proof.
  unfold handleSubmit.
  destruct (validateTree call this _ _ _) as [errors|] eqn:Hwalk; [|done].
  cbn [mbind result_bind]. intros [= <- <-].
  set (this1 := setState this errors (s_data (state this))).
  assert (validateTree call this1 (s_errors (state this1)) (self this1) [] = Ok errors) as ->
    by (by apply (validateTree_settled this this1 (s_errors (state this)))).
  cbn [mbind result_bind]. by rewrite setState_same.
Qed.

(** A form mounted with data is in the state a submission would leave:
    submitting it right away changes neither data nor errors. *)
Theorem mounted_form_is_validated (p : Props) (this1 : Form) :
  Boolean (p_data p) = true →
  componentWillMount call (constructor p) = Ok this1 →
  handleSubmit call this1 = Ok (this1, [Submitted (p_data p)]).
Proof.
  intros Hdata. unfold componentWillMount. cbn [constructor props state s_data]. rewrite Hdata.
  destruct (validateTree call (constructor p) _ _ _) as [errors|] eqn:Hwalk; [|done].
  cbn [mbind result_bind]. intros [= <-]. unfold handleSubmit.
  set (this1 := setState (constructor p) errors (p_data p)).
  assert (validateTree call this1 (s_errors (state this1)) (self this1) [] = Ok errors) as ->.
  { apply (validateTree_settled (constructor p) this1 (VObj ∅)); [done..|].
    cbn [this1 setState constructor state s_data]. by rewrite Hdata. }
  cbn [mbind result_bind]. by rewrite setState_same.
Qed.

End Resubmission.

(** ** Rendering *)

Lemma elem_walk_ind (P : elem → Prop) :
  P ENil → (∀ s, P (EText s)) → (∀ b, P (EBool b)) → (∀ n, P (ENum n)) →
  (∀ l, Forall P l → P (EArr l)) →
  (∀ role htmlFor name children,
     P children → (∀ l, children = EArr l → Forall P l) →
     P (EElem role htmlFor name children)) →
  ∀ element, P element.
Proof.
  intros HNil HText HBool HNum HArr HElem.
  fix go 1. intros [| s | b | n | l | role htmlFor name children]; [done..| |].
  - apply HArr. induction l as [|child l IH]; constructor; [apply go | apply IH].
  - apply HElem; [apply go|].
    destruct children as [| s | b | n | l | role' htmlFor' name' children']; try done.
    intros l' [= <-].
    induction l as [|child l IH]; constructor; [apply go | apply IH].
Qed.

Section RenderOutcome.
  Variable this : Form.

Lemma Children_map_cons f child l :
  Children_map f (EArr (child :: l)) =
    mapped ← Children_map f child; rest ← Children_map f (EArr l); Ok (mapped ++ rest).
Proof. done. Qed.

Lemma cloneTree_elem role htmlFor name children parentPath :
  cloneTree this (EElem role htmlFor name children) parentPath =
    if is_alert role htmlFor then
      let errors := R.view (R.lensPath (parentPath ++ [key htmlFor])) (s_errors (state this)) in
      if Boolean errors
      then Ok (Alert (EElem role htmlFor name children)
                 (match errors with VArr _ => prop errors "0" | _ => errors end))
      else Ok (Returned (EElem role htmlFor name children))
    else
      let path := parentPath ++ match name with Some s => [s] | None => [] end in
      if present children then
        mapped ← Children_map (λ child, cloneTree this child path) children;
        Ok (Container (EElem role htmlFor name children) mapped)
      else if bool_decide (name ≠ None) then
        Ok (Control (EElem role htmlFor name children)
              (R.view (R.lensPath path) (s_errors (state this)))
              (defaultToEmptyString (R.view (R.lensPath path) (s_data (state this))))
              path)
      else Ok (Returned (EElem role htmlFor name children)).
Proof. cbn [cloneTree]. by destruct name. Qed.

(** Cloning children returns exactly when they are renderable; the
    state and the path play no part in it. *)
Lemma Children_map_returns element : ∀ path,
  (∃ mapped, Children_map (λ child, cloneTree this child path) element = Ok mapped) ↔
  renderable element = true.
Proof.
  induction element as [| s | b | n | l IH | role htmlFor name children IH _] using elem_walk_ind;
    intros path; cbn [renderable].
  - split; [by intros [? ?] | done].
  - split; [done | by eexists].
  - split; [by intros [? ?] | done].
  - split; [by intros [? ?] | done].
  - induction l as [|child l IHl]; [split; [done | by eexists]|].
    apply Forall_cons in IH as [IHchild IH]. specialize (IHl IH).
    rewrite Children_map_cons. cbn [forallb]. rewrite andb_true_iff, <- IHl, <- (IHchild path).
    split.
    + intros [mapped Hm]. destruct (Children_map _ child) as [a|]; [|done].
      destruct (Children_map _ (EArr l)) as [b|]; [|done]. split; by eexists.
    + intros [[a ->] [b ->]]. by eexists.
  - cbn [Children_map]. rewrite cloneTree_elem.
    destruct (is_alert role htmlFor); cbn [orb].
    { split; [done|]. intros _. cbn zeta. destruct (Boolean _); by eexists. }
    cbn zeta. destruct (present children); cbn [negb orb].
    + rewrite <- (IH (path ++ match name with Some s => [s] | None => [] end)). split.
      * intros [mapped Hm]. destruct (Children_map _ children) as [a|]; [by eexists | done].
      * intros [a ->]. by eexists.
    + split; [done|]. intros _. destruct (bool_decide _); by eexists.
Qed.

End RenderOutcome.

(** Rendering fails, with a [TypeError], exactly when the form has
    children and they are not renderable: when the walk of [cloneTree]
    reaches a child that is [null], [undefined], a boolean or a number.
    The state of the form plays no part in it. *)
Theorem render_throws_exactly_on_bare_child (this : Form) (children : elem) :
  render this children = Throw TypeError ↔ children ≠ ENil ∧ renderable children = false.
Proof.
  assert (children = ENil ∨ children ≠ ENil) as [-> | Hne]
    by (destruct children; by auto).
  { split; [done | by intros [? _]]. }
  assert (render this children = Some <$> Children_map (λ child, cloneTree this child []) children)
    as -> by (by destruct children).
  pose proof (Children_map_returns this children []) as Hiff.
  destruct (Children_map _ children) as [mapped|[]].
  - assert (renderable children = true) as -> by (apply Hiff; by eexists).
    split; [done | by intros [_ ?]].
  - split; [intros _|done]. split; [done|].
    destruct (renderable children); [|done]. by destruct (proj2 Hiff eq_refl).
Qed.

Section Bindings.
  Variable this : Form.

(** Cloning the children of a regular group: each child on its own. *)
Lemma Children_map_regular path l :
  forallb regular (forget <$> l) = true →
  ∀ mapped,
    Children_map (λ child, cloneTree this child path) (EArr l) = Ok mapped →
    Forall2 (λ child r, cloneTree this child path = Ok r) l mapped.
Proof.
  induction l as [|child l IH]; intros Hreg mapped Hmap.
  { injection Hmap as <-. constructor. }
  rewrite fmap_cons in Hreg. cbn [forallb] in Hreg. apply andb_prop in Hreg as [Hchild Hreg].
  rewrite Children_map_cons in Hmap.
  destruct (Children_map _ child) as [a|] eqn:Ha; [|done].
  destruct (Children_map _ (EArr l)) as [b|] eqn:Hb; [|done].
  injection Hmap as <-.
  assert (∃ r, a = [r] ∧ cloneTree this child path = Ok r) as (r & -> & Hr).
  { destruct child as [| s | bb | n | l' | role htmlFor name children]; try done;
      cbn [Children_map] in Ha;
      (destruct (cloneTree this _ path) as [r|]; [|done]); injection Ha as <-; by eexists. }
  constructor; [done | by apply IH].
Qed.

Lemma cloneTree_bound element : ∀ pp r,
  regular (forget element) = true → labels_unnamed element = true →
  cloneTree this element pp = Ok r →
  bound r = fields pp (forget element).
Proof.
  induction element as [| s | b | n | l IH | role htmlFor name children IH IHl]
    using elem_walk_ind; intros pp r Hreg Hlab Hclone; try done.
  { by injection Hclone as <-. }
  rewrite cloneTree_elem in Hclone. cbn [forget labels_unnamed] in *.
  apply andb_prop in Hlab as [Hname Hlab].
  destruct (is_alert role htmlFor).
  - apply bool_decide_eq_true in Hname as ->. cbn zeta in Hclone.
    assert (bound r = []) as -> by (by destruct (Boolean _); injection Hclone as <-).
    by destruct (forget children).
  - cbn zeta in Hclone. destruct (present children) eqn:Hpresent.
    + destruct (Children_map _ children) as [mapped|] eqn:Hmap; [|done].
      injection Hclone as <-. cbn [bound].
      destruct children as [| s | b | n | l | role' htmlFor' name' children']; try done.
      * cbn [Children_map mbind result_bind cloneTree] in Hmap. injection Hmap as <-.
        cbn [forget regular] in Hreg. by destruct name.
      * cbn [forget regular] in Hreg. apply andb_prop in Hreg as [[Hnamed Hreg]%andb_prop _].
        destruct name as [s|]; [|done]. cbn [forget fields]. rewrite Hnamed. cbn [key].
        apply Children_map_regular in Hmap; [|done].
        specialize (IHl l eq_refl). cbn [labels_unnamed] in Hlab.
        clear -Hmap IHl Hreg Hlab. revert Hreg Hlab IHl.
        induction Hmap as [|child r l mapped Hr _ IHm]; intros Hreg Hlab IHl; [done|].
        rewrite fmap_cons in *. cbn [forallb flat_map] in *.
        apply andb_prop in Hreg as [Hchild Hreg]. apply andb_prop in Hlab as [Hlc Hlab].
        apply Forall_cons in IHl as [IHchild IHl].
        rewrite (IHchild _ _ Hchild Hlc Hr). f_equal. by apply IHm.
    + destruct children as [| s | b | n | l | role' htmlFor' name' children']; try done;
        cbn [forget regular fields] in *;
        (destruct name as [s'|]; cbn [bool_decide decide_rel] in Hclone;
         [|by injection Hclone as <-]); try done.
      rewrite Hreg. by injection Hclone as <-.
Qed.

End Bindings.

(** On a regular form whose alert labels carry no name, [handleChange]
    is bound to the controls of exactly the fields the full walk
    validates, at the same paths and in the same order. *)
Theorem render_binds_the_validated_fields (this : Form) (children : elem)
    (form : list rendered) :
  forget children = p_children (props this) →
  regular_form this = true →
  labels_unnamed children = true →
  render this children = Ok (Some form) →
  flat_map bound form = fields [] (self this).
Proof.
  intros Hforget Hreg Hlab Hrender. unfold regular_form, self in *. rewrite <- Hforget in *.
  destruct children as [| s | b | n | l | role htmlFor name children]; try done.
  cbn [forget] in *. apply andb_prop in Hreg as [Hreg _].
  cbn [render] in Hrender.
  destruct (Children_map _ (EArr l)) as [mapped|] eqn:Hmap; [|done].
  injection Hrender as <-.
  apply Children_map_regular in Hmap; [|done].
  cbn [fields named labels_unnamed] in *.
  clear Hforget. revert Hreg Hlab.
  induction Hmap as [|child r l mapped Hr _ IH]; intros Hreg Hlab; [done|].
  rewrite fmap_cons in *. cbn [forallb flat_map] in *.
  apply andb_prop in Hreg as [Hchild Hreg]. apply andb_prop in Hlab as [Hlc Hlab].
  rewrite (cloneTree_bound this child [] r Hchild Hlc Hr). f_equal. by apply IH.
Qed.

(** ** Rendering after a change, and before any *)

Lemma path_empty_object q : q ≠ [] → Forall ordinary q → R.path q (VObj ∅) = VUndef.
Proof.
  destruct q as [|k q]; [done|]. intros _ [Hk _]%Forall_cons. by apply path_keyed_missing.
Qed.

Section Shown.
  Variable call : nat → value → value.

(** After a change at the path of a control, the control is rendered
    with the value of the change (the empty string for a [null] one),
    with the message of the field as its [error] when the field has a
    validator entry, and bound to the same path. *)
Theorem changed_control_shows_the_change (this this' : Form) (parentPath : list string)
    (name : string) (v : value) (notices : list notice)
    (role htmlFor : option string) (children : elem) :
  handleChange call this (parentPath ++ [name]) v = Ok (this', notices) →
  is_alert role htmlFor = false → present children = false →
  ∃ r,
    fieldMessage call (R.view (R.lensPath (parentPath ++ [name])) (p_validation (props this))) v
      = Ok r ∧
    cloneTree this' (EElem role htmlFor (Some name) children) parentPath =
      Ok (Control (EElem role htmlFor (Some name) children)
            (if Boolean (R.view (R.lensPath (parentPath ++ [name])) (p_validation (props this)))
             then r
             else R.view (R.lensPath (parentPath ++ [name])) (s_errors (state this)))
            (defaultToEmptyString v)
            (parentPath ++ [name])).
Proof.
  rewrite handleChange_eq, !view_lensPath.
  destruct (fieldMessage _ _ _) as [r|]; [|done]. cbn [mbind result_bind].
  intros [= <- <-] Halert Hpresent. exists r. split; [done|].
  rewrite cloneTree_elem, Halert, Hpresent. cbn zeta.
  rewrite !view_lensPath. cbn [setState state s_errors s_data bool_decide decide_rel].
  rewrite bool_decide_eq_true_2 by done. rewrite path_assocPath.
  by destruct (Boolean _); rewrite ?path_assocPath.
Qed.

(** After a change at a validated field, the alert label of the field
    shows the message of the change when it is truthy (its first
    element when it is an array), and is left as it is when the change
    passes. *)
Theorem alert_label_shows_the_message (this this' : Form) (parentPath : list string)
    (field : string) (v : value) (notices : list notice)
    (name : option string) (children : elem) :
  handleChange call this (parentPath ++ [field]) v = Ok (this', notices) →
  field ≠ "" →
  Boolean (R.view (R.lensPath (parentPath ++ [field])) (p_validation (props this))) = true →
  ∃ r,
    fieldMessage call (R.view (R.lensPath (parentPath ++ [field])) (p_validation (props this))) v
      = Ok r ∧
    cloneTree this' (EElem (Some "alert") (Some field) name children) parentPath =
      Ok (if Boolean r
          then Alert (EElem (Some "alert") (Some field) name children)
                 (match r with VArr _ => prop r "0" | _ => r end)
          else Returned (EElem (Some "alert") (Some field) name children)).
Proof.
  rewrite handleChange_eq, !view_lensPath.
  destruct (fieldMessage _ _ _) as [r|]; [|done]. cbn [mbind result_bind].
  intros [= <- <-] Hfield Hentry. exists r. split; [done|].
  rewrite cloneTree_elem.
  assert (is_alert (Some "alert") (Some field) = true) as ->.
  { unfold is_alert. cbn [named]. rewrite bool_decide_eq_true_2 by done.
    by destruct (String.eqb_spec field ""). }
  cbn zeta. cbn [key setState state s_errors]. rewrite view_lensPath, Hentry, path_assocPath.
  by destruct (Boolean r).
Qed.

End Shown.

Section Untouched.
  Variable this : Form.
  Hypothesis Herrors : s_errors (state this) = VObj ∅.
  Hypothesis Hdata : s_data (state this) = VObj ∅.

Lemma blank_children mapped :
  Forall blank mapped →
  Forall (λ c, c = (VUndef, VStr "")) (flat_map controls mapped) ∧ flat_map alerts mapped = [].
Proof.
  induction 1 as [|r mapped [Hc Ha] _ [IHc IHa]]; [done|]. cbn [flat_map].
  rewrite Ha, IHa. split; [by apply Forall_app | done].
Qed.

Lemma cloneTree_blank element :
  Forall ordinary (names element) →
  (∀ pp r, Forall ordinary pp → cloneTree this element pp = Ok r → blank r) ∧
  (∀ pp mapped, Forall ordinary pp →
     Children_map (λ child, cloneTree this child pp) element = Ok mapped →
     Forall blank mapped).
Proof.
  induction element as [| s | b | n | l IH | role htmlFor name children IH _]
    using elem_walk_ind; intros Hnames; try done.
  - split; [by intros pp r _ [= <-]|]. intros pp mapped _ [= <-]. by repeat constructor.
  - split; [done|]. intros pp mapped Hpp. revert mapped.
    cbn [names] in Hnames. induction l as [|child l IHl]; intros mapped Hm.
    { by injection Hm as <-. }
    cbn [flat_map] in Hnames. apply Forall_app in Hnames as [Hchild Hnames].
    apply Forall_cons in IH as [IHchild IH]. rewrite Children_map_cons in Hm.
    destruct (Children_map _ child) as [a|] eqn:Ha; [|done].
    destruct (Children_map _ (EArr l)) as [b|] eqn:Hb; [|done].
    injection Hm as <-. apply Forall_app.
    split; [by eapply (proj2 (IHchild Hchild)) | by apply IHl].
  - assert (∀ pp r, Forall ordinary pp →
              cloneTree this (EElem role htmlFor name children) pp = Ok r → blank r)
      as Hclone.
    { intros pp r Hpp. rewrite cloneTree_elem. cbn [names] in Hnames.
      destruct (is_alert role htmlFor) eqn:Halert.
      - cbn zeta. rewrite Herrors, view_lensPath, path_empty_object;
          [by intros [= <-] | by destruct pp | by apply Forall_app].
      - cbn zeta. apply Forall_app in Hnames as [Hname Hnames].
        assert (Forall ordinary (pp ++ match name with Some s => [s] | None => [] end))
          as Hpath by (by apply Forall_app).
        destruct (present children).
        + destruct (Children_map _ children) as [mapped|] eqn:Hm; [|done].
          intros [= <-]. by apply blank_children, (proj2 (IH Hnames) _ _ Hpath Hm).
        + destruct name as [s|]; cbn [bool_decide decide_rel]; [|by intros [= <-]].
          rewrite bool_decide_eq_true_2 by done.
          rewrite Herrors, Hdata, !view_lensPath, !path_empty_object
            by (done || by destruct pp).
          intros [= <-]. split; [by repeat constructor | done]. }
    split; [done|]. intros pp mapped Hpp. cbn [Children_map].
    destruct (cloneTree this _ pp) as [r|] eqn:Hr; [|done].
    intros [= <-]. constructor; [by eapply Hclone | done].
Qed.

End Untouched.

(** A form constructed without data, whose controls and alert labels
    go by ordinary names, renders blank: every control gets the empty
    string as its value and no error, and no alert label shows a
    message. *)
Theorem untouched_form_renders_blank (p : Props) (children : elem) (form : list rendered) :
  Boolean (p_data p) = false →
  Forall ordinary (names children) →
  render (constructor p) children = Ok (Some form) →
  Forall (λ c, c = (VUndef, VStr "")) (flat_map controls form) ∧
  flat_map alerts form = [].
Proof.
  intros Hdata Hnames Hrender. apply blank_children.
  assert (Children_map (λ child, cloneTree (constructor p) child []) children = Ok form) as Hmap.
  { destruct children; try done; cbn [render] in Hrender;
      (destruct (Children_map _ _) as [mapped|]; [|done]); cbn in Hrender; congruence. }
  assert (s_data (state (constructor p)) = VObj ∅) as Hblank.
  { cbn [constructor state s_data]. by rewrite Hdata. }
  exact (proj2 (cloneTree_blank (constructor p) eq_refl Hblank children Hnames)
           [] form (Forall_nil_2 _) Hmap).
Qed.

End Hosted.

(** ** Ordinary keys: the host plays no part

    On keys under which the host holds nothing, the component computes
    what it computes on the [bare] host. *)

Section Ordinary.
  Context `{!Host}.

Lemma own_bare obj k : ordinary k → own obj k = own (H := bare) obj k.
Proof. intros [_ Hk]. destruct obj; try done. apply Hk. Qed.

Lemma prop_bare obj k : ordinary k → prop obj k = prop (H := bare) obj k.
Proof.
  intros Hk. unfold prop. rewrite <- (own_bare obj k Hk).
  destruct (own obj k); [done|]. destruct (prototype_of obj); [apply Hk | done].
Qed.


Lemma path_bare p : ∀ t, Forall ordinary p → R.path p t = R.path (H := bare) p t.
Proof.
  induction p as [|k p IH]; intros t Hp; [done|]. apply Forall_cons in Hp as [Hk Hp].
  cbn [R.path]. destruct (R.isNil t); [done|]. rewrite (prop_bare t k Hk). by apply IH.
Qed.


Lemma own_along_ordinary p : ∀ t, Forall ordinary p → own_along p t = true.
Proof.
  induction p as [|k p IH]; intros t Hp; [done|]. apply Forall_cons in Hp as [Hk Hp].
  cbn [own_along]. destruct (R.isNil t); [done|]. cbn [orb].
  destruct (own t k) eqn:Hown; [by apply IH|].
  apply bool_decide_eq_true. by apply prop_ordinary.
Qed.

Section Agreement.
  Variable call : nat → value → value.




End Agreement.

Lemma cloneTree_bare (this : Form) element :
  ordinary "0" → Forall ordinary (names element) →
  ∀ pp, Forall ordinary pp →
    cloneTree this element pp = cloneTree (H := bare) this element pp ∧
    Children_map (λ child, cloneTree this child pp) element =
      Children_map (λ child, cloneTree (H := bare) this child pp) element.
Proof.
  intros Hzero.
  induction element as [| s | b | n | l IH | role htmlFor name children IH _]
    using elem_walk_ind; intros Hnames pp Hpp; try done.
  - split; [done|]. cbn [names] in Hnames.
    induction l as [|child l IHl]; [done|].
    cbn [flat_map] in Hnames. apply Forall_app in Hnames as [Hchild Hnames].
    apply Forall_cons in IH as [IHchild IH].
    rewrite !Children_map_cons. rewrite (proj2 (IHchild Hchild pp Hpp)).
    by rewrite (IHl IH Hnames).
  - assert (cloneTree this (EElem role htmlFor name children) pp =
            cloneTree (H := bare) this (EElem role htmlFor name children) pp) as Hclone.
    { rewrite cloneTree_elem, (cloneTree_elem (H := bare)). cbn [names] in Hnames.
      unfold R.view, R.lensPath. cbn [R.getter].
      destruct (is_alert role htmlFor).
      - cbn zeta. rewrite (path_bare (pp ++ [key htmlFor])) by (by apply Forall_app).
        destruct (R.path (H := bare) _ _) as [| | | | | | errors |]; try done.
        by rewrite (prop_bare _ "0").
      - cbn zeta. apply Forall_app in Hnames as [Hname Hnames].
        assert (Forall ordinary (pp ++ match name with Some s => [s] | None => [] end))
          as Hpath by (by apply Forall_app).
        rewrite !(path_bare (pp ++ _)) by done.
        by rewrite (proj2 (IH Hnames _ Hpath)). }
    split; [done|]. cbn [Children_map]. by rewrite Hclone.
Qed.

(** Rendering children whose names are ordinary reads own properties
    only. *)
Lemma render_bare (this : Form) (children : elem) :
  ordinary "0" → Forall ordinary (names children) →
  render this children = render (H := bare) this children.
Proof.
  intros Hzero Hnames. unfold render.
  destruct (cloneTree_bare this children Hzero Hnames [] (Forall_nil_2 _)) as [_ ->]. done.
Qed.

End Ordinary.


(** ** The claims on the example forms

    The examples are run on the [sample] host. *)

#[local] Existing Instance sample.

Lemma sample_ordinary (k : string) : plain_key k = true → ordinary k.
Proof.
  unfold plain_key. intros Hk. apply negb_true_iff in Hk.
  apply orb_false_iff in Hk as [[Hlength Hname]%orb_false_iff HtoString].
  split.
  - intros p. cbn [inherited sample]. rewrite HtoString. by destruct p.
  - intros f. cbn [builtin sample]. by rewrite Hlength, Hname.
Qed.

Lemma sample_ordinary_path (p : list string) : forallb plain_key p = true → Forall ordinary p.
Proof.
  intros Hp. apply Forall_forall. intros k Hk%list_elem_of_In.
  by apply sample_ordinary, (proj1 (forallb_forall _ _) Hp).
Qed.


(** First failure wins: with [[isNonEmpty, alwaysBad, alwaysWorse]] and
    a value [isNonEmpty] accepts, the error recorded is ["bad"]. *)
Lemma first_failure_wins_example :
  R.view (R.lensPath ["code"]) (p_validation (props (constructor codeProps))) =
    VArr (VFun <$> [isNonEmpty; alwaysBad; alwaysWorse]) ∧
  ∃ this', handleChange validators (constructor codeProps) ["code"] (VStr "x") =
             Ok (this', notifyChangeEvent this') ∧
    R.view (R.lensPath ["code"]) (s_errors (state this')) = VStr "bad".
Proof.
  assert (R.view (R.lensPath ["code"]) (p_validation (props (constructor codeProps))) =
    VArr (VFun <$> [isNonEmpty; alwaysBad; alwaysWorse])) as Hentry
    by (vm_compute; reflexivity).
  split; [exact Hentry|].
  destruct (list_entry_first_failure_wins validators (constructor codeProps) ["code"]
              (VStr "x") _ Hentry) as (_ & (this' & Hchange & _ & Hview) & _).
  exists this'. split; [exact Hchange|]. rewrite Hview. vm_compute. reflexivity.
Defined.

(** A single function that answers [false] for a good value leaves
    [false], not [null], where the error was. *)
Lemma passing_change_writes_false :
  Boolean (R.view (R.lensPath ["email"]) (s_errors (state requiredForm))) = true ∧
  Boolean (validators required (VStr "x")) = false ∧
  (λ r, R.view (R.lensPath ["email"]) (s_errors (state r.1)))
    <$> handleChange validators requiredForm ["email"] (VStr "x") = Ok (VBool false) ∧
  VBool false ≠ VNull.
Proof. repeat split; try (vm_compute; reflexivity). discriminate. Qed.

Lemma passing_change_example :
  (∃ this', handleChange validators mountedForm ["email"] (VStr "a@b.com") =
              Ok (this', notifyChangeEvent this') ∧
     R.view (R.lensPath ["email"]) (s_errors (state this')) = VNull) ∧
  (∃ this', handleChange validators requiredForm ["email"] (VStr "x") =
              Ok (this', notifyChangeEvent this') ∧
     R.view (R.lensPath ["email"]) (s_errors (state this')) = VBool false).
Proof.
  destruct (passing_change_overwrites_error validators mountedForm ["email"] (VStr "a@b.com"))
    as [Hlist _].
  destruct (passing_change_overwrites_error validators requiredForm ["email"] (VStr "x"))
    as [_ Hsingle].
  split.
  - destruct (Hlist [isNonEmpty; isEmailShaped]) as (this' & Hchange & _ & Hview).
    + vm_compute. reflexivity.
    + repeat constructor.
    + exists this'. split; [exact Hchange | exact Hview].
  - destruct (Hsingle required) as (this' & Hchange & _ & Hview & _).
    + vm_compute. reflexivity.
    + vm_compute. reflexivity.
    + exists this'. split; [exact Hchange|]. rewrite Hview. vm_compute. reflexivity.
Defined.



(** [address.zip] changed in a form whose validator spec has a function
    at [address]: no error is signalled and the field goes unvalidated,
    though [isNonEmpty] rejects the value. *)
Lemma shape_mismatch_goes_unnoticed :
  is_entry (R.view (R.lensPath ["address"]) (p_validation (props flatSpecForm))) = true ∧
  handleChange validators flatSpecForm ["address"; "zip"] (VStr "") =
    Ok (setState flatSpecForm (VObj ∅) (VObj {[ "address" := VObj {[ "zip" := VStr "" ]} ]}), []) ∧
  validators isNonEmpty (VStr "") = VStr "required".
Proof. repeat split; vm_compute; reflexivity. Qed.

Lemma shape_mismatch_example :
  (∃ this', handleChange validators flatSpecForm (["address"] ++ "zip" :: []) (VStr "") =
              Ok (this', notifyChangeEvent this') ∧
     s_errors (state this') = s_errors (state flatSpecForm)) ∧
  handleChange validators (constructor addressProps) ["address"] (VStr "") = Throw TypeError.
Proof.
  destruct (shape_mismatch_is_not_checked validators flatSpecForm) as [Hleaf _].
  destruct (shape_mismatch_is_not_checked validators (constructor addressProps)) as [_ Hkeyed].
  split.
  - destruct (Hleaf ["address"] "zip" [] (VStr "")) as (this' & Hchange & Herrors & _).
    + vm_compute. reflexivity.
    + vm_compute. reflexivity.
    + exists this'. split; [exact Hchange | exact Herrors].
  - apply (Hkeyed ["address"] (VStr "") {[ "zip" := VFun isNonEmpty ]}).
    vm_compute. reflexivity.
Defined.

(** A form with a single child is validated neither when it mounts nor
    when it is submitted. *)
Lemma single_child_example :
  validateTree validators singleChildForm (VObj ∅) (self singleChildForm) [] = Ok (VObj ∅) ∧
  handleSubmit validators singleChildForm = Ok (singleChildForm, [Submitted (VObj ∅)]).
Proof.
  destruct (single_child_form_is_not_validated validators) as (Hskip & _ & Hsubmit).
  split.
  - apply Hskip; reflexivity.
  - apply (Hsubmit singleChildForm). reflexivity.
Defined.

(** C2 at a form with a single child.  Submission of the untouched
    one-field form: with the field as the only child no error is
    computed and the error tree stays as it was; with a label beside
    the field the empty field is reported. *)
Lemma single_child_submit_reports_nothing :
  handleSubmit validators singleChildForm =
    Ok (setState singleChildForm (VObj ∅) (VObj ∅), [Submitted (VObj ∅)]) ∧
  handleSubmit validators twoChildrenForm =
    Ok (setState twoChildrenForm (VObj {[ "email" := VStr "required" ]}) (VObj ∅),
        [Submitted (VObj ∅)]).
Proof. split; vm_compute; reflexivity. Qed.

(** The controlled e-mail form, mounted with an empty address. *)
Lemma mountedForm_mounted :
  componentWillMount validators (constructor (controlledProps "")) = Ok mountedForm.
Proof. vm_compute. reflexivity. Qed.

(** C3 at a form whose data the host replaces.  The new data is
    adopted; the error tree stored with it is that of the data the form
    held before, while the adopted data has no error. *)
Lemma new_data_gets_old_errors :
  componentWillReceiveProps validators mountedForm (controlledProps "a@b.com") =
    Ok {| props := controlledProps "a@b.com";
          state := {| s_errors := VObj {[ "email" := VStr "required" ]};
                      s_data := VObj {[ "email" := VStr "a@b.com" ]} |} |} ∧
  validateTree validators
    {| props := controlledProps "a@b.com";
       state := {| s_errors := VObj {[ "email" := VStr "required" ]};
                   s_data := VObj {[ "email" := VStr "a@b.com" ]} |} |}
    (VObj ∅) (NElem None (p_children (controlledProps "a@b.com"))) [] = Ok (VObj ∅).
Proof. split; vm_compute; reflexivity. Qed.

(** Outside the regular layouts the walk loses or misfiles messages.
    An unnamed wrapper among the children of the form returns the
    errors of its own children only, so the message for [email] before
    it is dropped; inside a group such a wrapper files its children
    under the key ["undefined"]. *)
Lemma wrapper_drops_and_misfiles :
  regular_form wrappedTopForm = false ∧
  validateTree validators wrappedTopForm (VObj ∅) (self wrappedTopForm) []
    = Ok (VObj {[ "zip" := VStr "required" ]}) ∧
  regular_form wrappedGroupForm = false ∧
  validateTree validators wrappedGroupForm (VObj ∅) (self wrappedGroupForm) []
    = Ok (VObj {[ "address" :=
                   VObj {[ "undefined" := VObj {[ "zip" := VStr "required" ]} ]} ]}).
Proof. repeat split; vm_compute; reflexivity. Qed.



(** Writing the city beside the zip code leaves the zip code. *)
Lemma sharing_example :
  R.view (R.lensPath ["address"; "zip"])
    (R.set (R.lensPath ["address"; "city"]) (VStr "Paris")
       (VObj {[ "address" := VObj {[ "zip" := VStr "75001" ]} ]})) = VStr "75001".
Proof.
  rewrite (set_leaves_parted_paths_alone ["address"; "zip"] ["address"; "city"]).
  - vm_compute. reflexivity.
  - apply sample_ordinary_path. vm_compute. reflexivity.
  - right. left. discriminate.
  - right. eexists. split; [reflexivity|]. right. eexists. split; [vm_compute; reflexivity|].
    exact I.
Defined.

(** Submitting the e-mail form after a good address was typed: the
    [null] entry the change left is gone. *)
Lemma submit_from_scratch_example :
  handleSubmit validators emailTyped =
    Ok (setState emailTyped (VObj ∅) (s_data (state emailTyped)),
        [Submitted (s_data (state emailTyped))]).
Proof.
  rewrite (submit_revalidates_from_scratch validators emailTyped).
  - vm_compute. reflexivity.
  - reflexivity.
Defined.

(** ** Further examples *)

Example forget_signup : forget signupChildren = p_children signupProps.
Proof. reflexivity. Qed.

(** Typing a good address into the e-mail form: the handler is told the
    data and the errors the form now holds. *)
Lemma change_notifies_example :
  handleChange validators (constructor emailProps) ["email"] (VStr "a@b.com")
    = Ok (emailTyped, [Changed (s_data (state emailTyped)) (s_errors (state emailTyped))]) ∧
  props emailTyped = emailProps ∧
  s_data (state emailTyped) = R.set (R.lensPath ["email"]) (VStr "a@b.com") (VObj ∅).
Proof.
  assert (handleChange validators (constructor emailProps) ["email"] (VStr "a@b.com")
            = Ok (emailTyped, [Changed (s_data (state emailTyped)) (s_errors (state emailTyped))]))
    as Hchange by (vm_compute; reflexivity).
  split; [exact Hchange|].
  destruct (change_notifies_stored_state validators _ _ _ _ _ Hchange) as (Hprops & Hdata & _).
  split; [exact Hprops | exact Hdata].
Defined.

(** Zip code and city of the sign-up form, in either order. *)
Lemma parted_changes_example :
  handleChanges validators (constructor signupProps)
    [(["address"; "zip"], VStr ""); (["address"; "city"], VStr "Paris")] =
  handleChanges validators (constructor signupProps)
    [(["address"; "city"], VStr "Paris"); (["address"; "zip"], VStr "")].
Proof.
  apply (parted_changes_commute validators (constructor signupProps)
           ["address"; "zip"] ["address"; "city"]).
  - right. left. discriminate.
  - right. eexists. split; [reflexivity|]. left. reflexivity.
  - right. eexists. split; [reflexivity|]. left. reflexivity.
Defined.

(** The full walk over the sign-up form filled in, from its stored
    errors: the [null] of the e-mail stays out of the result again. *)
Lemma walk_truthy_example :
  ∃ m', VObj {[ "address" := VObj {[ "zip" := VStr "required" ]} ]} = VObj m' ∧
        (truthy_entries ∅ → truthy_entries m').
Proof.
  apply (walk_files_truthy_entries validators signupFilled (self signupFilled) ∅ []).
  vm_compute. reflexivity.
Defined.

(** Submitting the sign-up form a second time. *)
Lemma submit_twice_example :
  handleSubmit validators
    (setState signupFilled (VObj {[ "address" := VObj {[ "zip" := VStr "required" ]} ]})
       (s_data (state signupFilled))) =
  Ok (setState signupFilled (VObj {[ "address" := VObj {[ "zip" := VStr "required" ]} ]})
        (s_data (state signupFilled)),
      [Submitted (s_data (state signupFilled))]).
Proof.
  apply (submit_is_idempotent validators signupFilled).
  vm_compute. reflexivity.
Defined.

(** The form mounted with an empty e-mail, submitted as it is. *)
Lemma mounted_submit_example :
  handleSubmit validators mountedForm
    = Ok (mountedForm, [Submitted (p_data (controlledProps ""))]).
Proof.
  apply (mounted_form_is_validated validators (controlledProps "")).
  - reflexivity.
  - vm_compute. reflexivity.
Defined.

(** The sign-up form filled in, rendered: its three controls are bound
    to the three fields of the walk. *)
Lemma render_binds_example :
  render signupFilled signupChildren = Ok (Some signupRendered) ∧
  flat_map bound signupRendered = [["email"]; ["address"; "zip"]; ["address"; "city"]] ∧
  flat_map bound signupRendered = fields [] (self signupFilled).
Proof.
  assert (render signupFilled signupChildren = Ok (Some signupRendered)) as Hrender
    by (vm_compute; reflexivity).
  split; [exact Hrender|]. split; [reflexivity|].
  apply (render_binds_the_validated_fields signupFilled signupChildren).
  - reflexivity.
  - vm_compute. reflexivity.
  - vm_compute. reflexivity.
  - exact Hrender.
Defined.

(** The zip code of the sign-up form touched and left empty: its
    control shows the empty string and the message. *)
Lemma changed_control_example :
  handleChange validators (constructor signupProps) ["address"; "zip"] (VStr "")
    = Ok (zipTouched, []) ∧
  cloneTree zipTouched (textInput "zip") ["address"] =
    Ok (Control (textInput "zip") (VStr "required") (VStr "") ["address"; "zip"]).
Proof.
  assert (handleChange validators (constructor signupProps) (["address"] ++ ["zip"]) (VStr "")
            = Ok (zipTouched, [])) as Hchange by (vm_compute; reflexivity).
  split; [exact Hchange|].
  destruct (changed_control_shows_the_change validators _ _ _ _ _ _ None None ENil
              Hchange eq_refl eq_refl) as (r & Hr & Hclone).
  vm_compute in Hr. injection Hr as <-. exact Hclone.
Defined.

(** ... and its alert label shows the message. *)
Lemma alert_label_example :
  handleChange validators (constructor signupProps) ["address"; "zip"] (VStr "")
    = Ok (zipTouched, []) ∧
  cloneTree zipTouched (alertLabel "zip") ["address"] =
    Ok (Alert (alertLabel "zip") (VStr "required")).
Proof.
  assert (handleChange validators (constructor signupProps) (["address"] ++ ["zip"]) (VStr "")
            = Ok (zipTouched, [])) as Hchange by (vm_compute; reflexivity).
  split; [exact Hchange|].
  assert ("zip" ≠ "") as Hzip by discriminate.
  destruct (alert_label_shows_the_message validators _ _ _ _ _ _ None ENil
              Hchange Hzip eq_refl) as (r & Hr & Hclone).
  vm_compute in Hr. injection Hr as <-. exact Hclone.
Defined.

(** The sign-up form before any change, rendered. *)
Lemma untouched_signup_example :
  ∃ form,
    render (constructor signupProps) signupChildren = Ok (Some form) ∧
    Forall (λ c, c = (VUndef, VStr "")) (flat_map controls form) ∧
    flat_map alerts form = [].
Proof.
  assert (∃ form, render (constructor signupProps) signupChildren = Ok (Some form))
    as [form Hrender] by (eexists; vm_compute; reflexivity).
  exists form. split; [exact Hrender|].
  apply (untouched_form_renders_blank signupProps signupChildren form).
  - reflexivity.
  - apply sample_ordinary_path. vm_compute. reflexivity.
  - exact Hrender.
Defined.


(** [address.length] changed in the form whose validator spec has the
    function [isNonEmpty] at [address]: resolution finds the [length]
    of the function, [1], and the change fails on calling it. *)
Lemma function_length_is_no_validator :
  R.view (R.lensPath ["address"; "length"]) (p_validation (props flatSpecForm)) = VNum 1 ∧
  (handleChange validators flatSpecForm ["address"; "length"] (VStr "") = Throw TypeError ↔
   applicable (R.view (R.lensPath ["address"; "length"]) (p_validation (props flatSpecForm)))
     = false) ∧
  handleChange validators flatSpecForm ["address"; "length"] (VStr "") = Throw TypeError.
Proof.
  split; [vm_compute; reflexivity|]. split.
  - apply (change_throws_exactly_on_bad_entry validators flatSpecForm ["address"; "length"]).
    vm_compute. reflexivity.
  - vm_compute. reflexivity.
Defined.

(** A field named [toString] in a form without entry for it:
    resolution finds [Object.prototype.toString], which is called as
    the validator, and its answer is stored as the message. *)
Example inherited_member_is_called :
  R.view (R.lensPath ["toString"]) (p_validation (props twoChildrenForm)) = VFun objectToString ∧
  handleChange validators twoChildrenForm ["toString"] (VStr "x") =
    Ok (setState twoChildrenForm
          (VObj {[ "toString" := VStr "[object Undefined]" ]})
          (VObj {[ "toString" := VStr "x" ]}), []).
Proof. split; vm_compute; reflexivity. Qed.

(** The untouched two-children form and the form with the lone child:
    only the second fails on submission. *)
Lemma submit_throws_example :
  (handleSubmit validators loneChildForm = Throw TypeError ↔
   well_formed loneChildForm = false) ∧
  (handleSubmit validators twoChildrenForm = Throw TypeError ↔
   well_formed twoChildrenForm = false) ∧
  well_formed twoChildrenForm = true.
Proof.
  split; [|split].
  - apply (submit_throws_exactly_on_ill_formed validators loneChildForm).
    vm_compute. reflexivity.
  - apply (submit_throws_exactly_on_ill_formed validators twoChildrenForm).
    vm_compute. reflexivity.
  - vm_compute. reflexivity.
Defined.



(** Why the keys have to be ordinary.  Under [toString] a missing node
    reads as the inherited function, a freshly written one does not:
    the write at [toString.x] changes what is viewed at
    [toString.length]. *)
Example fresh_node_hides_inherited_member :
  R.view (R.lensPath ["toString"; "length"]) (VObj ∅) = VNum 0 ∧
  R.view (R.lensPath ["toString"; "length"])
    (R.set (R.lensPath ["toString"; "x"]) (VStr "v") (VObj ∅)) = VUndef.
Proof. split; vm_compute; reflexivity. Qed.

(** A control named [toString] in an untouched form is given the
    inherited function as its error and as its value. *)
Example control_named_toString_is_not_blank :
  render (constructor signupProps) (EArr [textInput "toString"; alertLabel "toString"]) =
    Ok (Some [Control (textInput "toString") (VFun objectToString) (VFun objectToString)
                ["toString"];
              Alert (alertLabel "toString") (VFun objectToString)]).
Proof. vm_compute. reflexivity. Qed.
